(** * k8s-bigip-ctlr: the native-resource reconciliation core

    A shallow embedding of [pkg/controller/nativeResourceWorker.go] and
    [pkg/controller/resourceConfig.go], and the properties of the
    controller's specification stated over it.

    Conventions of the embedding:
    - a Go [map[string]T] is a [gmap string T]; where the source ranges over
      a map, the embedding ranges over [map_to_list], and statements about
      the result speak of membership only (Go leaves the order open);
    - a Go pointer that may be nil is an [option]; dereferencing nil is a
      panic, which the embedding reports as [None] / [Panicked];
    - [metav1.Time] is an integer instant ([Z]); [Before] is [<];
    - Go string comparison is bytewise, which is [String.ltb];
    - [sort.Search] is the standard library's binary search; [sort.Slice]
      and [sort.Sort] are run as the standard library runs them on short
      slices (insertion sort). *)

From Stdlib Require Import ZArith Lia Bool.
From Stdlib Require Import Strings.String Strings.Ascii DecimalString.
From Stdlib Require Import Structures.OrderedTypeEx.
From stdpp Require Import base option list gmap strings sorting.

Local Open Scope Z_scope.

(* ================================================================= *)
(** * Part I: the embedding *)
(* ================================================================= *)

(** ** Standard-library routines the source relies on *)

(** [sort.Search(n, f)]: the loop [for i < j { h := (i+j)/2; if !f(h)
    { i = h+1 } else { j = h } }], run with one unit of fuel per element. *)
Fixpoint search_loop (fuel : nat) (f : nat → bool) (i j : nat) : nat :=
  match fuel with
  | O => i
  | S fuel' =>
      if (i <? j)%nat then
        let h := ((i + j) / 2)%nat in
        if negb (f h) then search_loop fuel' f (h + 1)%nat j
        else search_loop fuel' f i h
      else i
  end.

Definition sort_Search (n : nat) (f : nat → bool) : nat :=
  search_loop n f 0%nat n.

(** Insertion sort as in Go's [insertionSort]: each element is swapped
    towards the front while it is [less] than its predecessor. *)
Fixpoint sink {A} (less : A → A → bool) (x : A) (rev_prefix : list A) : list A :=
  match rev_prefix with
  | [] => [x]
  | y :: rest => if less x y then y :: sink less x rest else x :: y :: rest
  end.

(** [rev_sorted] holds the already sorted prefix, last element first. *)
Fixpoint insertion_loop {A} (less : A → A → bool) (rev_sorted : list A) (todo : list A) : list A :=
  match todo with
  | [] => rev rev_sorted
  | x :: todo' => insertion_loop less (sink less x rev_sorted) todo'
  end.

Definition sort_Slice {A} (less : A → A → bool) (l : list A) : list A :=
  insertion_loop less [] l.

(** [sort.Sort] runs the same loop through the [Less] method. *)
Definition sort_Sort {A} (less : A → A → bool) (l : list A) : list A :=
  insertion_loop less [] l.

(** [strings.HasPrefix(s, p)]. *)
Definition HasPrefix (s p : string) : bool := String.prefix p s.

(** [strings.ReplaceAll] for a one-byte pattern, the only use in the
    source. *)
Fixpoint ReplaceAll (s : string) (old : ascii) (new : string) : string :=
  match s with
  | EmptyString => EmptyString
  | String c s' =>
      if Ascii.eqb c old then String.append new (ReplaceAll s' old new)
      else String c (ReplaceAll s' old new)
  end.

(** [strings.Replace(s, old, new, 1)] for a one-byte pattern. *)
Fixpoint ReplaceFirst (s : string) (old : ascii) (new : string) : string :=
  match s with
  | EmptyString => EmptyString
  | String c s' =>
      if Ascii.eqb c old then String.append new s'
      else String c (ReplaceFirst s' old new)
  end.

(** [strings.TrimSuffix(s, "/")]. *)
Fixpoint TrimSuffixSlash (s : string) : string :=
  match s with
  | EmptyString => EmptyString
  | String c EmptyString => if Ascii.eqb c "/"%char then EmptyString else s
  | String c s' => String c (TrimSuffixSlash s')
  end.

(** [fmt.Sprint] of an integer. *)
Definition Sprint (z : Z) : string := NilZero.string_of_int (Z.to_int z).

(** [strings.ToLower] on ASCII letters. *)
Definition lower_ascii (c : ascii) : ascii :=
  let n := nat_of_ascii c in
  if ((65 <=? n) && (n <=? 90))%nat then ascii_of_nat (n + 32) else c.

Fixpoint ToLower (s : string) : string :=
  match s with
  | EmptyString => EmptyString
  | String c s' => String (lower_ascii c) (ToLower s')
  end.

Notation "a +:+ b" := (String.append a b) (at level 60, right associativity).

(** ** Constants (resourceConfig.go) *)

Definition DEFAULT_HTTP_PORT : Z := 80.
Definition DEFAULT_HTTPS_PORT : Z := 443.
Definition DEFAULT_SNAT : string := "auto".
Definition CustomProfileClient : string := "clientside".
Definition CustomProfileServer : string := "serverside".
Definition HttpRedirectIRuleName : string := "http_redirect_irule".
Definition HttpRedirectNoHostIRuleName : string := "http_redirect_irule_nohost".
Definition HttpsRedirectDgName : string := "https_redirect_dg".
Definition TLSIRuleName : string := "tls_irule".
Definition BIGIP : string := "bigip".
Definition Secret : string := "secret".
Definition Certificate : string := "certificate".
Definition ReencryptHostsDgName : string := "ssl_reencrypt_servername_dg".
Definition EdgeHostsDgName : string := "ssl_edge_servername_dg".
Definition ReencryptServerSslDgName : string := "ssl_reencrypt_serverssl_dg".
Definition EdgeServerSslDgName : string := "ssl_edge_serverssl_dg".
Definition HTTP : string := "http".

(** Modelled from the spec: the constants below are declared outside the
    two source files. The specification names the termination modes
    {edge, reencrypt, passthrough} and the HTTP-traffic policies
    {allow, none, redirect}; the route API spells the insecure policies
    capitalised, and [handleRouteTLS] lower-cases them before comparing. *)
Definition TLSEdge : string := "edge".
Definition TLSReencrypt : string := "reencrypt".
Definition TLSPassthrough : string := "passthrough".
Definition TLSRedirectInsecure : string := "redirect".
Definition TLSAllowInsecure : string := "allow".
Definition TLSNoInsecure : string := "none".
Definition InsecureEdgeTerminationPolicyNone : string := "None".
Definition InsecureEdgeTerminationPolicyAllow : string := "Allow".
Definition InsecureEdgeTerminationPolicyRedirect : string := "Redirect".
Definition DEFAULT_PARTITION : string := "Common".
Definition PolicyControlForward : string := "forwarding".
Definition URLRewriteAnnotation : string := "virtual-server.f5.com/rewrite-target-url".
Definition F5VsBalanceAnnotation : string := "virtual-server.f5.com/balance".
Definition VirtualServer : string := "VirtualServer".
Definition Route : string := "Route".
Definition NodePort : string := "nodeport".

(** ** Internal data groups (resourceConfig.go) *)

Record InternalDataGroupRecord := mkIDGRecord {
  rec_Name : string;
  rec_Data : string;
}.

Record InternalDataGroup := mkIDG {
  idg_Name : string;
  idg_Partition : string;
  idg_Records : list InternalDataGroupRecord;
}.

(** The closure [nameKeyFunc]: [idg.Records[i].Name >= name]. The index is
    always in range when [sort.Search] calls it. *)
Definition nameKeyFunc (recs : list InternalDataGroupRecord) (name : string) (i : nat) : bool :=
  match recs !! i with
  | Some r => negb (String.ltb (rec_Name r) name)
  | None => false
  end.

Definition AddOrUpdateRecord (idg : InternalDataGroup) (name data : string)
  : InternalDataGroup * bool :=
  let recs := idg_Records idg in
  let i := sort_Search (length recs) (nameKeyFunc recs name) in
  let insert_at :=
    (mkIDG (idg_Name idg) (idg_Partition idg)
           (take i recs ++ mkIDGRecord name data :: drop i recs), true) in
  match recs !! i with
  | Some r =>
      if String.eqb (rec_Name r) name then
        if negb (String.eqb (rec_Data r) data) then
          (mkIDG (idg_Name idg) (idg_Partition idg)
                 (<[i := mkIDGRecord (rec_Name r) data]> recs), true)
        else (idg, false)
      else insert_at
  | None => insert_at
  end.

Definition RemoveRecord (idg : InternalDataGroup) (name : string)
  : InternalDataGroup * bool :=
  let recs := idg_Records idg in
  let nbrRecs := length recs in
  let i := sort_Search nbrRecs (nameKeyFunc recs name) in
  match recs !! i with
  | Some r =>
      if String.eqb (rec_Name r) name then
        (mkIDG (idg_Name idg) (idg_Partition idg)
               (take (nbrRecs - 1)
                     (take i recs ++ drop (i + 1) recs ++ [mkIDGRecord "" ""])), true)
      else (idg, false)
  | None => (idg, false)
  end.

(** The invariant the source comments state: "The records are maintained
    as a sorted array". Strictly ascending names exclude duplicates. *)
Definition rec_lt (a b : InternalDataGroupRecord) : Prop :=
  String.ltb (rec_Name a) (rec_Name b) = true.

Definition records_sorted (recs : list InternalDataGroupRecord) : Prop :=
  StronglySorted rec_lt recs.

(** ** The route resource (the fields of [routeapi.Route] the source reads) *)

Record TLSConfig := mkTLSConfig {
  tc_Termination : string;
  tc_Certificate : string;
  tc_Key : string;
  tc_CACertificate : string;
  tc_DestinationCACertificate : string;
  tc_InsecureEdgeTerminationPolicy : string;
}.

(** [intstr.IntOrString]. *)
Record IntOrString := mkIntOrString {
  ios_IntVal : Z;
  ios_StrVal : string;
}.

Record routeapi_Route := mkRoute {
  rt_Name : string;
  rt_Namespace : string;
  rt_CreationTimestamp : Z;
  rt_Annotations : gmap string string;
  rt_Host : string;
  rt_Path : string;
  rt_To_Name : string;
  rt_Port : option IntOrString;          (* Spec.Port, its TargetPort *)
  rt_TLS : option TLSConfig;
}.

Record RouteBackend := mkRouteBackend {
  rb_Name : string;
  rb_Weight : Z;
}.

(** ** The extended route specification *)

Record TLS := mkTLS {
  tls_ClientSSL : string;
  tls_ServerSSL : string;
  tls_Reference : string;
}.

(** An entry of [healthMonitors] in the extended spec. *)
Record HealthMonitorSpec := mkHealthMonitorSpec {
  hm_Path : string;
  hm_Type : string;
  hm_Send : string;
  hm_Recv : string;
  hm_Interval : Z;
  hm_Timeout : Z;
}.

Record Meta := mkMeta {
  DependsOnTLSCipher : bool;
}.

Record ExtendedRouteGroupSpec := mkExtendedRouteGroupSpec {
  VServerName : string;
  VServerAddr : string;
  AllowSourceRange : list string;
  SNAT : string;
  WAF : string;
  IRules : list string;
  HealthMonitors : list HealthMonitorSpec;
  ers_TLS : TLS;
  ers_Meta : Meta;
}.

(** [extendedParsedSpec]; [local] and [global] are pointers. The worker
    stores a plain boolean in [override] at every site. *)
Record extendedParsedSpec := mkExtendedParsedSpec {
  override : bool;
  local : option ExtendedRouteGroupSpec;
  global : option ExtendedRouteGroupSpec;
  namespaces : list string;
  partition : string;
}.

#[global] Instance TLS_eq_dec : EqDecision TLS.
Proof. solve_decision. Defined.
#[global] Instance HealthMonitorSpec_eq_dec : EqDecision HealthMonitorSpec.
Proof. solve_decision. Defined.
#[global] Instance Meta_eq_dec : EqDecision Meta.
Proof. solve_decision. Defined.
#[global] Instance ExtendedRouteGroupSpec_eq_dec : EqDecision ExtendedRouteGroupSpec.
Proof. solve_decision. Defined.
#[global] Instance extendedParsedSpec_eq_dec : EqDecision extendedParsedSpec.
Proof. solve_decision. Defined.

(** ** The generated configuration *)

Record condition := mkCondition {
  cond_Name : string;
  cond_HTTPHost : bool;
  cond_Tcp : bool;
  cond_Values : list string;
}.

Record action := mkAction {
  act_Name : string;
  act_Pool : string;
}.

Record Rule := mkRule {
  rule_Name : string;
  rule_FullURI : string;
  rule_Ordinal : Z;
  rule_Actions : list action;
  rule_Conditions : list condition;
}.

Definition Rules := list Rule.

Record Policy := mkPolicy {
  pol_Name : string;
  pol_Partition : string;
  pol_Controls : list string;
  pol_Requires : list string;
  pol_Rules : Rules;
}.

Record MonitorName := mkMonitorName {
  mn_Name : string;
}.

Record Monitor := mkMonitor {
  mon_Name : string;
  mon_Partition : string;
  mon_Interval : Z;
  mon_Type : string;
  mon_Send : string;
  mon_Recv : string;
  mon_Timeout : Z;
  mon_Path : string;
  mon_InUse : bool;
}.

Record PoolMember := mkPoolMember {
  pm_Address : string;
  pm_Port : Z;
}.

Record Pool := mkPool {
  pool_Name : string;
  pool_Partition : string;
  pool_ServiceName : string;
  pool_ServiceNamespace : string;
  pool_ServicePort : IntOrString;
  pool_NodeMemberLabel : string;
  pool_Balance : string;
  pool_MonitorNames : list MonitorName;
  pool_Members : list PoolMember;
}.

Record nameRef := mkNameRef {
  nr_Name : string;
  nr_Partition : string;
}.

Record ProfileRef := mkProfileRef {
  prof_Name : string;
  prof_Partition : string;
  prof_Context : string;
  prof_Namespace : string;
  prof_BigIPProfile : bool;
}.

Record virtualAddress := mkVirtualAddress {
  va_BindAddr : string;
  va_Port : Z;
}.

Record Virtual := mkVirtual {
  v_Name : string;
  v_Partition : string;
  v_Enabled : bool;
  v_Destination : string;
  v_VirtualAddress : option virtualAddress;
  v_SNAT : string;
  v_WAF : string;
  v_IRules : list string;
  v_AllowSourceRange : list string;
  v_Policies : list nameRef;
  v_Profiles : list ProfileRef;
}.

Record metaData := mkMetaData {
  md_ResourceType : string;
  md_Protocol : string;
  md_baseResources : gmap string string;
  md_hosts : list string;
}.

Record IRule := mkIRule {
  ir_Name : string;
  ir_Partition : string;
  ir_Code : string;
}.

Record CustomProfile := mkCustomProfile {
  cp_Name : string;
  cp_Partition : string;
  cp_Context : string;
  cp_Cert : string;
  cp_Key : string;
}.

(** Maps keyed by a [NameRef] or [SecretKey] struct are keyed by the pair
    of its two string fields. *)
Record ResourceConfig := mkResourceConfig {
  MetaData : metaData;
  rc_Virtual : Virtual;
  Pools : list Pool;
  Monitors : list Monitor;
  Policies : list Policy;
  IRulesMap : gmap (string * string) IRule;
  IntDgMap : gmap (string * string) (gmap string InternalDataGroup);
  customProfiles : gmap (string * string) CustomProfile;
}.

#[global] Instance IntOrString_eq_dec : EqDecision IntOrString.
Proof. solve_decision. Defined.
#[global] Instance condition_eq_dec : EqDecision condition.
Proof. solve_decision. Defined.
#[global] Instance action_eq_dec : EqDecision action.
Proof. solve_decision. Defined.
#[global] Instance Rule_eq_dec : EqDecision Rule.
Proof. solve_decision. Defined.
#[global] Instance Policy_eq_dec : EqDecision Policy.
Proof. solve_decision. Defined.
#[global] Instance MonitorName_eq_dec : EqDecision MonitorName.
Proof. solve_decision. Defined.
#[global] Instance Monitor_eq_dec : EqDecision Monitor.
Proof. solve_decision. Defined.
#[global] Instance PoolMember_eq_dec : EqDecision PoolMember.
Proof. solve_decision. Defined.
#[global] Instance Pool_eq_dec : EqDecision Pool.
Proof. solve_decision. Defined.
#[global] Instance nameRef_eq_dec : EqDecision nameRef.
Proof. solve_decision. Defined.
#[global] Instance ProfileRef_eq_dec : EqDecision ProfileRef.
Proof. solve_decision. Defined.
#[global] Instance virtualAddress_eq_dec : EqDecision virtualAddress.
Proof. solve_decision. Defined.
#[global] Instance Virtual_eq_dec : EqDecision Virtual.
Proof. solve_decision. Defined.
#[global] Instance metaData_eq_dec : EqDecision metaData.
Proof. solve_decision. Defined.
#[global] Instance IRule_eq_dec : EqDecision IRule.
Proof. solve_decision. Defined.
#[global] Instance CustomProfile_eq_dec : EqDecision CustomProfile.
Proof. solve_decision. Defined.
#[global] Instance InternalDataGroupRecord_eq_dec : EqDecision InternalDataGroupRecord.
Proof. solve_decision. Defined.
#[global] Instance InternalDataGroup_eq_dec : EqDecision InternalDataGroup.
Proof. solve_decision. Defined.
#[global] Instance ResourceConfig_eq_dec : EqDecision ResourceConfig.
Proof. solve_decision. Defined.

(** [WideIP] of the DNS configuration: only compared and copied here. *)
Record WideIP := mkWideIP {
  wip_DomainName : string;
  wip_RecordType : string;
  wip_LBMethod : string;
}.

#[global] Instance WideIP_eq_dec : EqDecision WideIP.
Proof. solve_decision. Defined.

(** ** The resource store *)

Record ResourceStore := mkResourceStore {
  ltmConfig : gmap string (gmap string ResourceConfig);
  ltmConfigCache : gmap string (gmap string ResourceConfig);
  dnsConfig : gmap string WideIP;
  dnsConfigCache : gmap string WideIP;
  extdSpecMap : gmap string extendedParsedSpec;
  invertedNamespaceLabelMap : gmap string string;
  processedNativeResources : gset (string * string * string);
}.

(** ** The extended specification of a route group *)

(** [getExtendedRouteSpec] (resourceConfig.go). *)
Definition getExtendedRouteSpec (rs : ResourceStore) (routeGroup : string)
  : option ExtendedRouteGroupSpec :=
  match extdSpecMap rs !! routeGroup with
  | None => None
  | Some extdSpec =>
      if override extdSpec && bool_decide (local extdSpec ≠ None)
      then local extdSpec
      else global extdSpec
  end.







(** ** Collaborators outside the two source files

    Functions of the repository and of the cluster client that the two
    files call but do not define. They enter the embedding as the fields
    of an interface; every property below holds for each implementation,
    and the concrete inputs further down fix one. A Go [error] or nil
    result is [None]. *)

Record SecretObj := mkSecretObj {
  sec_Name : string;
  sec_Data : gmap string string;
}.

Record poolPathRef := mkPoolPathRef {
  ppr_path : string;
  ppr_poolName : string;
}.

Record Externals := mkExternals {
  (* rule synthesis *)
  createRule : string → string → string → list string → option Rule;
  getRewriteActions : string → string → nat → option (list action);
  formatVirtualServerRuleName : string → string → string → string → string;
  createPolicy : Rules → string → string → option Policy;
  rules_Less : Rule → Rule → bool;
  (* routes and services *)
  GetRouteBackends : routeapi_Route → list RouteBackend;
  IsRouteABDeployment : routeapi_Route → bool;
  essentialInformerFound : string → bool;
  GetServicePort : string → string → string → option Z;
  checkCertificateHost : string → string → string → bool;
  routeInformerStore : string → option (list routeapi_Route);
  updatePoolMembersForNodePort : ResourceConfig → string → ResourceConfig;
  updatePoolMembersForCluster : ResourceConfig → string → ResourceConfig;
  (* TLS material *)
  getSecret : string → string → option SecretObj;
  createSecretClientSSLProfile : ResourceConfig → SecretObj → string → option ResourceConfig;
  createSecretServerSSLProfile : ResourceConfig → SecretObj → string → option ResourceConfig;
  createClientSSLProfile :
    ResourceConfig → string → string → string → string → string → option ResourceConfig;
  createServerSSLProfile :
    ResourceConfig → string → string → string → string → string → option ResourceConfig;
  updateDataGroup :
    gmap (string * string) (gmap string InternalDataGroup) →
    string → string → string → string → string →
    gmap (string * string) (gmap string InternalDataGroup);
  updateDataGroupOfDgName :
    gmap (string * string) (gmap string InternalDataGroup) →
    list poolPathRef → string → string → string → string →
    gmap (string * string) (gmap string InternalDataGroup);
  getTLSIRule : string → string;
  (* net.ParseIP: [Some true] for an IPv4 address, [Some false] for IPv6 *)
  ParseIP : string → option bool;
  httpRedirectIRule : Z → string → string → string;
  httpRedirectIRuleNoHost : Z → string;
}.

(** Field updates, written out. *)
Definition set_Ordinal (r : Rule) (o : Z) : Rule :=
  mkRule (rule_Name r) (rule_FullURI r) o (rule_Actions r) (rule_Conditions r).

Definition set_Actions (r : Rule) (a : list action) : Rule :=
  mkRule (rule_Name r) (rule_FullURI r) (rule_Ordinal r) a (rule_Conditions r).

Definition set_Conditions (r : Rule) (c : list condition) : Rule :=
  mkRule (rule_Name r) (rule_FullURI r) (rule_Ordinal r) (rule_Actions r) c.

Definition set_Values (c : condition) (v : list string) : condition :=
  mkCondition (cond_Name c) (cond_HTTPHost c) (cond_Tcp c) v.

(** Index of the first element satisfying [p]. *)
Fixpoint find_index {A} (p : A → bool) (l : list A) : option nat :=
  match l with
  | [] => None
  | x :: l' => if p x then Some 0%nat else S <$> find_index p l'
  end.

(** ** Rule synthesis and merging *)

Section RuleEngine.
Context (E : Externals).

(** The closure [sortrules] of [prepareRouteLTMRules]: the rules of the
    map are appended, then numbered from [ordinal] on. *)
Definition sortrules (r : gmap string Rule) (rls : Rules) (ordinal : Z) : Rules :=
  imap (λ i v, set_Ordinal v (ordinal + Z.of_nat i)) (rls ++ (map_to_list r).*2).

(** [prepareRouteLTMRules]; a nil result is [None]. *)
Definition prepareRouteLTMRules (route : routeapi_Route) (poolName : string)
    (allowSourceRange : list string) : option Rules :=
  let uri := rt_Host route +:+ rt_Path route in
  let path := rt_Path route in
  let ruleName :=
    formatVirtualServerRuleName E (rt_Host route) (rt_Namespace route) path poolName in
  rl ← createRule E uri poolName ruleName allowSourceRange;
  rl ← match rt_Annotations route !! URLRewriteAnnotation with
       | Some rewritePath =>
           rewriteActions ← getRewriteActions E path rewritePath (length (rule_Actions rl));
           Some (set_Actions rl (rule_Actions rl ++ rewriteActions))
       | None => Some rl
       end;
  let wildcards : gmap string Rule := if HasPrefix uri "*." then {[ uri := rl ]} else ∅ in
  let rlMap : gmap string Rule := if HasPrefix uri "*." then ∅ else {[ uri := rl ]} in
  let rls := sortrules rlMap [] 0 in
  let w := sortrules wildcards [] (Z.of_nat (size rlMap)) in
  Some (sort_Sort (rules_Less E) (rls ++ w)).

(** [existingRlMap] of [mergeRules]: rule name to the rule's place in
    [pol.Rules] (the map holds pointers into the policy; a later rule of
    the same name replaces an earlier one). *)
Definition existingRlMap (rules : Rules) : gmap string nat :=
  foldl (λ m ir, <[rule_Name ir.2 := ir.1]> m) ∅ (imap (λ i r, (i, r)) rules).

(** The merge of one new rule into the existing rule of the same name:
    the first host condition of the existing rule receives the first
    value of the first host condition of the new rule. [Values[0]] of an
    empty slice panics. *)
Definition mergeHost (existingRule newRule : Rule) : option Rule :=
  match find_index cond_HTTPHost (rule_Conditions existingRule) with
  | None => Some existingRule
  | Some ci =>
      match find_index cond_HTTPHost (rule_Conditions newRule) with
      | None => Some existingRule
      | Some ni =>
          existingCond ← rule_Conditions existingRule !! ci;
          newCond ← rule_Conditions newRule !! ni;
          v ← cond_Values newCond !! 0%nat;
          Some (set_Conditions existingRule
                  (<[ci := set_Values existingCond (cond_Values existingCond ++ [v])]>
                     (rule_Conditions existingRule)))
      end
  end.

(** The loop of [mergeRules] over the new rules; [existing] is
    [pol.Rules] as updated through the pointers, [newRules] the rules
    without a namesake. *)
Fixpoint mergeRules_loop (names : gmap string nat) (existing : Rules)
    (rls : Rules) (newRules : Rules) : option (Rules * Rules) :=
  match rls with
  | [] => Some (existing, newRules)
  | newRule :: rest =>
      match names !! rule_Name newRule with
      | Some i =>
          existingRule ← existing !! i;
          merged ← mergeHost existingRule newRule;
          mergeRules_loop names (<[i := merged]> existing) rest newRules
      | None => mergeRules_loop names existing rest (newRules ++ [newRule])
      end
  end.

Definition mergeRules (pol : Policy) (rls : Rules) : option (Rules * Rules) :=
  mergeRules_loop (existingRlMap (pol_Rules pol)) (pol_Rules pol) rls [].

(** [Policy.AddRules]. *)
Definition AddRules (pol : Policy) (rls : Rules) : option Policy :=
  '(existing, newRules) ← mergeRules pol rls;
  let tcpReqExist := bool_decide ("tcp" ∈ pol_Requires pol) in
  let requiresTcp :=
    existsb (λ x, existsb cond_Tcp (rule_Conditions x)) newRules in
  let requires :=
    if negb tcpReqExist && requiresTcp
    then pol_Requires pol ++ ["tcp"] else pol_Requires pol in
  Some (mkPolicy (pol_Name pol) (pol_Partition pol) (pol_Controls pol) requires
          (sort_Sort (rules_Less E) (existing ++ newRules))).

(** The rules of the routes of a group merged into one policy, route by
    route: [prepareRouteLTMRules] followed by [AddRules]. *)
Fixpoint addRouteRules (pol : Policy) (routes : list (routeapi_Route * string))
    (allowSourceRange : list string) : option Policy :=
  match routes with
  | [] => Some pol
  | (route, poolName) :: rest =>
      rules ← prepareRouteLTMRules route poolName allowSourceRange;
      pol' ← AddRules pol rules;
      addRouteRules pol' rest allowSourceRange
  end.
End RuleEngine.

(** ** Names (resourceConfig.go, nativeResourceWorker.go) *)

(** [AS3NameFormatter]: the special characters are replaced one after the
    other, in the order of [SpecialChars]. *)
Definition AS3NameFormatter (name : string) : string :=
  foldl (λ n kv, ReplaceAll n kv.1 kv.2) name
    [("."%char, "_"); (":"%char, "_"); ("/"%char, "_");
     ("%"%char, "."); ("-"%char, "_"); ("="%char, "_")].

Definition formatCustomVirtualServerName (name : string) (port : Z) : string :=
  AS3NameFormatter name +:+ "_" +:+ Sprint port.

Definition formatPoolName (namespace svc : string) (port : Z) (nodeMemberLabel : string)
  : string :=
  let poolName := svc +:+ "_" +:+ Sprint port +:+ "_" +:+ namespace in
  let poolName :=
    if bool_decide (nodeMemberLabel ≠ "")
    then poolName +:+ "_" +:+ ReplaceAll nodeMemberLabel "="%char "_"
    else poolName in
  AS3NameFormatter poolName.

Definition formatPolicyName (hostname hostGroup name : string) : string :=
  let host := if bool_decide (hostGroup ≠ "") then hostGroup else hostname in
  let host := if HasPrefix host "*" then ReplaceFirst host "*"%char "wildcard" else host in
  AS3NameFormatter (name +:+ "_" +:+ host +:+ "_" +:+ "policy").

Definition getRSCfgResName (rsVSName resName : string) : string :=
  rsVSName +:+ "_" +:+ resName.

Definition JoinBigipPath (partition objName : string) : string :=
  if bool_decide (objName = "") then ""
  else if bool_decide (partition = "") then objName
  else "/" +:+ partition +:+ "/" +:+ objName.

Record portStruct := mkPortStruct {
  ps_protocol : string;
  ps_port : Z;
}.

Definition frameRouteVSName (vServerName vServerAddr : string) (ps : portStruct) : string :=
  if bool_decide (vServerName ≠ "")
  then formatCustomVirtualServerName vServerName (ps_port ps)
  else formatCustomVirtualServerName ("routes_" +:+ vServerAddr) (ps_port ps).

(** ** Updates of a resource configuration *)

Definition set_Virtual (rc : ResourceConfig) (v : Virtual) : ResourceConfig :=
  mkResourceConfig (MetaData rc) v (Pools rc) (Monitors rc) (Policies rc)
    (IRulesMap rc) (IntDgMap rc) (customProfiles rc).

Definition set_MetaData (rc : ResourceConfig) (m : metaData) : ResourceConfig :=
  mkResourceConfig m (rc_Virtual rc) (Pools rc) (Monitors rc) (Policies rc)
    (IRulesMap rc) (IntDgMap rc) (customProfiles rc).

Definition set_Pools (rc : ResourceConfig) (p : list Pool) : ResourceConfig :=
  mkResourceConfig (MetaData rc) (rc_Virtual rc) p (Monitors rc) (Policies rc)
    (IRulesMap rc) (IntDgMap rc) (customProfiles rc).

Definition set_Monitors (rc : ResourceConfig) (m : list Monitor) : ResourceConfig :=
  mkResourceConfig (MetaData rc) (rc_Virtual rc) (Pools rc) m (Policies rc)
    (IRulesMap rc) (IntDgMap rc) (customProfiles rc).

Definition set_Policies (rc : ResourceConfig) (p : list Policy) : ResourceConfig :=
  mkResourceConfig (MetaData rc) (rc_Virtual rc) (Pools rc) (Monitors rc) p
    (IRulesMap rc) (IntDgMap rc) (customProfiles rc).

Definition set_IRulesMap (rc : ResourceConfig) (m : gmap (string * string) IRule)
  : ResourceConfig :=
  mkResourceConfig (MetaData rc) (rc_Virtual rc) (Pools rc) (Monitors rc) (Policies rc)
    m (IntDgMap rc) (customProfiles rc).

Definition set_IntDgMap (rc : ResourceConfig)
    (m : gmap (string * string) (gmap string InternalDataGroup)) : ResourceConfig :=
  mkResourceConfig (MetaData rc) (rc_Virtual rc) (Pools rc) (Monitors rc) (Policies rc)
    (IRulesMap rc) m (customProfiles rc).

Definition set_v_SNAT_WAF_IRules (v : Virtual) (snat waf : string) (irules : list string)
  : Virtual :=
  mkVirtual (v_Name v) (v_Partition v) (v_Enabled v) (v_Destination v)
    (v_VirtualAddress v) snat waf irules (v_AllowSourceRange v) (v_Policies v)
    (v_Profiles v).

Definition set_v_IRules (v : Virtual) (irules : list string) : Virtual :=
  set_v_SNAT_WAF_IRules v (v_SNAT v) (v_WAF v) irules.

Definition set_v_Policies (v : Virtual) (p : list nameRef) : Virtual :=
  mkVirtual (v_Name v) (v_Partition v) (v_Enabled v) (v_Destination v)
    (v_VirtualAddress v) (v_SNAT v) (v_WAF v) (v_IRules v) (v_AllowSourceRange v) p
    (v_Profiles v).

Definition set_v_Profiles (v : Virtual) (p : list ProfileRef) : Virtual :=
  mkVirtual (v_Name v) (v_Partition v) (v_Enabled v) (v_Destination v)
    (v_VirtualAddress v) (v_SNAT v) (v_WAF v) (v_IRules v) (v_AllowSourceRange v)
    (v_Policies v) p.

Definition set_InUse (m : Monitor) (b : bool) : Monitor :=
  mkMonitor (mon_Name m) (mon_Partition m) (mon_Interval m) (mon_Type m) (mon_Send m)
    (mon_Recv m) (mon_Timeout m) (mon_Path m) b.

(** [addIRule]: "Creates an IRule if it doesn't already exist". *)
Definition addIRule (rsCfg : ResourceConfig) (name partition rule : string) : ResourceConfig :=
  match IRulesMap rsCfg !! (name, partition) with
  | Some _ => rsCfg
  | None => set_IRulesMap rsCfg (<[(name, partition) := mkIRule name partition rule]> (IRulesMap rsCfg))
  end.

Definition addInternalDataGroup (rsCfg : ResourceConfig) (name partition : string)
  : ResourceConfig :=
  match IntDgMap rsCfg !! (name, partition) with
  | Some _ => rsCfg
  | None => set_IntDgMap rsCfg (<[(name, partition) := ∅]> (IntDgMap rsCfg))
  end.

(** [Virtual.AddIRule]. *)
Definition Virtual_AddIRule (v : Virtual) (ruleName : string) : Virtual :=
  if bool_decide (ruleName ∈ v_IRules v) then v
  else set_v_IRules v (v_IRules v ++ [ruleName]).

(** [SetPolicy]. *)
Fixpoint replacePolicy (pols : list Policy) (policy : Policy) : option (list Policy) :=
  match pols with
  | [] => None
  | pol :: rest =>
      if bool_decide (pol_Name pol = pol_Name policy)
         && bool_decide (pol_Partition pol = pol_Partition policy)
      then Some (policy :: rest)
      else (pol ::.) <$> replacePolicy rest policy
  end.

Definition SetPolicy (rc : ResourceConfig) (policy : Policy) : ResourceConfig :=
  let toFind := mkNameRef (pol_Name policy) (pol_Partition policy) in
  let v := rc_Virtual rc in
  let v := if bool_decide (toFind ∈ v_Policies v) then v
           else set_v_Policies v (v_Policies v ++ [toFind]) in
  let rc := set_Virtual rc v in
  match replacePolicy (Policies rc) policy with
  | Some pols => set_Policies rc pols
  | None => set_Policies rc (Policies rc ++ [policy])
  end.

(** [FindPolicy]. *)
Definition FindPolicy (rc : ResourceConfig) (controlType : string) : option Policy :=
  List.find (λ pol, bool_decide (controlType ∈ pol_Controls pol)) (Policies rc).

(** ** Results of the stateful operations

    A Go function that mutates its receiver and returns an [error] gives
    [Done s] (nil error, state [s]), [Failed s msg] (state at the return and
    the error) or [Panicked] (a run-time panic: nil dereference, index out
    of range). *)
Inductive outcome (S : Type) : Type :=
  | Done (s : S)
  | Failed (s : S) (msg : string)
  | Panicked.
Arguments Done {S} s.
Arguments Failed {S} s msg.
Arguments Panicked {S}.

(** ** The configuration builder *)

Section ConfigBuilder.
Context (E : Externals).

(** [AddRuleToPolicy]. The policy found is updated by [AddRules] and set
    back; without one, [createPolicy] makes it. [None] is a panic of
    [mergeRules]. *)
Definition AddRuleToPolicy (rsCfg : ResourceConfig) (policyName partition : string)
    (rules : Rules) : option ResourceConfig :=
  match FindPolicy rsCfg PolicyControlForward with
  | Some policy =>
      policy' ← AddRules E policy rules;
      Some (SetPolicy rsCfg policy')
  | None =>
      match createPolicy E rules policyName partition with
      | Some plcy => Some (SetPolicy rsCfg plcy)
      | None => Some rsCfg
      end
  end.

(** [handleRouteGroupExtendedSpec]; its error is always nil. *)
Definition handleRouteGroupExtendedSpec (rsCfg : ResourceConfig)
    (extdSpec : ExtendedRouteGroupSpec) : ResourceConfig :=
  let snat := if bool_decide (SNAT extdSpec = "") then DEFAULT_SNAT else SNAT extdSpec in
  let rsCfg :=
    set_Virtual rsCfg
      (set_v_SNAT_WAF_IRules (rc_Virtual rsCfg) snat (WAF extdSpec) (IRules extdSpec)) in
  foldl (λ rsCfg hm,
           let type := if bool_decide (hm_Type hm = "") then "http" else hm_Type hm in
           set_Monitors rsCfg
             (Monitors rsCfg ++
              [mkMonitor (AS3NameFormatter (hm_Path hm) +:+ "_monitor")
                 (v_Partition (rc_Virtual rsCfg)) (hm_Interval hm) type (hm_Send hm)
                 (hm_Recv hm) (hm_Timeout hm) (hm_Path hm) false]))
        rsCfg (HealthMonitors extdSpec).

Definition isSecureRoute (route : routeapi_Route) : bool :=
  bool_decide (rt_TLS route ≠ None).

Definition isPassthroughRoute (route : routeapi_Route) : bool :=
  match rt_TLS route with
  | Some tls => bool_decide (tc_Termination tls = TLSPassthrough)
  | None => false
  end.

(** The monitor loop of [prepareResourceConfigFromRoute]: the first
    monitor whose path has the prefix [host+path] is marked in use and
    named in the pool. *)
Definition bindMonitor (rsCfg : ResourceConfig) (route : routeapi_Route) (pool : Pool)
  : ResourceConfig * Pool :=
  match find_index (λ monitor, HasPrefix (mon_Path monitor) (rt_Host route +:+ rt_Path route))
          (Monitors rsCfg) with
  | Some index =>
      match Monitors rsCfg !! index with
      | Some monitor =>
          (set_Monitors rsCfg (<[index := set_InUse monitor true]> (Monitors rsCfg)),
           mkPool (pool_Name pool) (pool_Partition pool) (pool_ServiceName pool)
             (pool_ServiceNamespace pool) (pool_ServicePort pool)
             (pool_NodeMemberLabel pool) (pool_Balance pool)
             (pool_MonitorNames pool ++ [mkMonitorName (mon_Name monitor)])
             (pool_Members pool))
      | None => (rsCfg, pool)
      end
  | None => (rsCfg, pool)
  end.

(** The loop of [prepareResourceConfigFromRoute] over the backends. *)
Fixpoint backendLoop (rsCfg : ResourceConfig) (route : routeapi_Route)
    (servicePort : IntOrString) (backendSvcs : list RouteBackend)
  : outcome ResourceConfig :=
  match backendSvcs with
  | [] => Done rsCfg
  | bs :: rest =>
      let pool :=
        mkPool (formatPoolName (rt_Namespace route) (rb_Name bs) (ios_IntVal servicePort) "")
          (v_Partition (rc_Virtual rsCfg)) (rb_Name bs) (rt_Namespace route) servicePort ""
          (default "" (rt_Annotations route !! F5VsBalanceAnnotation)) [] [] in
      let '(rsCfg, pool) := bindMonitor rsCfg route pool in
      let rsCfg := set_Pools rsCfg (Pools rsCfg ++ [pool]) in
      if negb (isPassthroughRoute route) && negb (IsRouteABDeployment E route) then
        match prepareRouteLTMRules E route (pool_Name pool)
                (v_AllowSourceRange (rc_Virtual rsCfg)) with
        | None => Failed rsCfg "failed to create LTM Rules"
        | Some rules =>
            let policyName :=
              formatPolicyName (rt_Host route) (rt_Namespace route)
                (v_Name (rc_Virtual rsCfg)) in
            match AddRuleToPolicy rsCfg policyName (v_Partition (rc_Virtual rsCfg)) rules with
            | None => Panicked
            | Some rsCfg => backendLoop rsCfg route servicePort rest
            end
        end
      else backendLoop rsCfg route servicePort rest
  end.

(** [prepareResourceConfigFromRoute]. *)
Definition prepareResourceConfigFromRoute (rsCfg : ResourceConfig)
    (route : routeapi_Route) (servicePort : IntOrString) (ps : portStruct)
  : outcome ResourceConfig :=
  let skip :=
    match rt_TLS route with
    | Some tls =>
        bool_decide (ps_protocol ps = HTTP)
        && (bool_decide (tc_InsecureEdgeTerminationPolicy tls = "")
            || bool_decide (tc_InsecureEdgeTerminationPolicy tls
                            = InsecureEdgeTerminationPolicyNone))
    | None => false
    end in
  if skip then Done rsCfg
  else
    let md := MetaData rsCfg in
    let rsCfg :=
      set_MetaData rsCfg
        (mkMetaData (md_ResourceType md) (md_Protocol md) (md_baseResources md)
           (md_hosts md ++ [rt_Host route])) in
    backendLoop rsCfg route servicePort (GetRouteBackends E route).

(** The loop of [removeUnusedHealthMonitors], one unit of fuel per
    monitor; reading past the slice panics ([None]). *)
Fixpoint removeUnused_loop (fuel : nat) (monitors : list Monitor) (i monitorLen : nat)
  : option (list Monitor) :=
  match fuel with
  | O => Some monitors
  | S fuel' =>
      if (i <? monitorLen)%nat then
        monitor ← monitors !! i;
        if negb (mon_InUse monitor) then
          let monitors' :=
            if (i =? length monitors - 1)%nat then take i monitors
            else take i monitors ++ drop (i + 1) monitors in
          removeUnused_loop fuel' monitors' i (monitorLen - 1)
        else removeUnused_loop fuel' monitors (i + 1) monitorLen
      else Some monitors
  end.

Definition removeUnusedHealthMonitors (rsCfg : ResourceConfig) : option ResourceConfig :=
  let monitorLen := length (Monitors rsCfg) in
  set_Monitors rsCfg <$> removeUnused_loop monitorLen (Monitors rsCfg) 0 monitorLen.
End ConfigBuilder.

(** ** TLS handling (resourceConfig.go) *)

(** [strings.Split(s, "/")], [strings.TrimPrefix(s, "/")] and
    [strings.TrimSpace] on ASCII white space. *)
Fixpoint split_slash_aux (s : string) (cur : string) : list string :=
  match s with
  | EmptyString => [cur]
  | String c s' =>
      if Ascii.eqb c "/"%char then cur :: split_slash_aux s' ""
      else split_slash_aux s' (cur +:+ String c "")
  end.

Definition SplitSlash (s : string) : list string := split_slash_aux s "".

Definition TrimPrefixSlash (s : string) : string :=
  match s with
  | String c s' => if Ascii.eqb c "/"%char then s' else s
  | EmptyString => s
  end.

Definition is_space (c : ascii) : bool :=
  let n := nat_of_ascii c in
  ((n =? 32) || ((9 <=? n) && (n <=? 13)))%nat.

Fixpoint trim_left (s : string) : string :=
  match s with
  | String c s' => if is_space c then trim_left s' else s
  | EmptyString => s
  end.

Fixpoint trim_right (s : string) : string :=
  match s with
  | EmptyString => EmptyString
  | String c s' =>
      match trim_right s' with
      | EmptyString => if is_space c then EmptyString else String c EmptyString
      | t => String c t
      end
  end.

Definition TrimSpace (s : string) : string := trim_right (trim_left s).

Definition ConvertStringToProfileRef (profileName context ns : string) : ProfileRef :=
  let profName := TrimSpace (TrimPrefixSlash profileName) in
  match SplitSlash profName with
  | [p0; p1] => mkProfileRef p1 p0 context ns true
  | [_] => mkProfileRef profileName DEFAULT_PARTITION context ns true
  | _ => mkProfileRef "" "" context ns true
  end.

(** [Virtual.AddOrUpdateProfile]: "The profiles are maintained as a sorted
    array". *)
Definition profileKeyFunc (profiles : list ProfileRef) (prof : ProfileRef) (i : nat) : bool :=
  match profiles !! i with
  | Some p =>
      String.ltb (prof_Partition prof) (prof_Partition p)
      || (bool_decide (prof_Partition p = prof_Partition prof)
          && negb (String.ltb (prof_Name p) (prof_Name prof)))
  | None => false
  end.

Definition AddOrUpdateProfile (v : Virtual) (prof : ProfileRef) : Virtual :=
  let profiles := v_Profiles v in
  let profCt := length profiles in
  let i := sort_Search profCt (profileKeyFunc profiles prof) in
  match profiles !! i with
  | Some p =>
      if bool_decide (prof_Partition p = prof_Partition prof)
         && bool_decide (prof_Name p = prof_Name prof)
      then
        if bool_decide (prof_Context p = prof_Context prof) then v
        else set_v_Profiles v (<[i := prof]> profiles)
      else set_v_Profiles v (take i profiles ++ prof :: drop i profiles)
  | None => set_v_Profiles v (take i profiles ++ prof :: drop i profiles)
  end.

Record BigIPSSLProfiles := mkBigIPSSLProfiles {
  bp_clientSSL : string;
  bp_serverSSL : string;
  bp_key : string;
  bp_certificate : string;
  bp_caCertificate : string;
  bp_destinationCACertificate : string;
}.

Record TLSContext := mkTLSContext {
  tx_name : string;
  tx_namespace : string;
  tx_resourceType : string;
  tx_referenceType : string;
  tx_hostname : string;
  tx_httpsPort : Z;
  tx_ipAddress : string;
  tx_termination : string;
  tx_httpTraffic : string;
  tx_poolPathRefs : list poolPathRef;
  tx_bigIPSSLProfiles : BigIPSSLProfiles;
}.

Section TLSResolver.
Context (E : Externals).

(** [handleDataGroupIRules]. *)
Definition handleDataGroupIRules (rsCfg : ResourceConfig) (vsHost tlsTerminationType : string)
  : ResourceConfig :=
  if bool_decide (tlsTerminationType ≠ "") then
    let vname := v_Name (rc_Virtual rsCfg) in
    let tlsIRuleName := JoinBigipPath DEFAULT_PARTITION (getRSCfgResName vname TLSIRuleName) in
    let rsCfg :=
      if bool_decide (tlsTerminationType = TLSEdge) then
        let rsCfg := addIRule rsCfg (getRSCfgResName vname TLSIRuleName) DEFAULT_PARTITION
                       (getTLSIRule E vname) in
        let rsCfg := addInternalDataGroup rsCfg (getRSCfgResName vname EdgeHostsDgName)
                       DEFAULT_PARTITION in
        addInternalDataGroup rsCfg (getRSCfgResName vname EdgeServerSslDgName)
          DEFAULT_PARTITION
      else if bool_decide (tlsTerminationType = TLSReencrypt) then
        let rsCfg := addIRule rsCfg (getRSCfgResName vname TLSIRuleName) DEFAULT_PARTITION
                       (getTLSIRule E vname) in
        let rsCfg := addInternalDataGroup rsCfg (getRSCfgResName vname ReencryptHostsDgName)
                       DEFAULT_PARTITION in
        addInternalDataGroup rsCfg (getRSCfgResName vname ReencryptServerSslDgName)
          DEFAULT_PARTITION
      else rsCfg in
    if bool_decide (vsHost ≠ "")
    then set_Virtual rsCfg (Virtual_AddIRule (rc_Virtual rsCfg) tlsIRuleName)
    else rsCfg
  else rsCfg.

(** The state [handleTLS] works on: the controller's [SSLContext] and
    the resource configuration. *)
Definition tls_state : Type := gmap string SecretObj * ResourceConfig.

(** One secret-backed profile of the [Secret] case; [create] is
    [createSecretClientSSLProfile] or [createSecretServerSSLProfile].
    [inl st] is the [return false] of the source with the state reached
    (a fetched secret stays in [SSLContext]), [inr st] goes on. *)
Definition secretProfile
    (create : ResourceConfig → SecretObj → string → option ResourceConfig)
    (context : string) (tlsContext : TLSContext) (profile : string) (st : tls_state)
  : tls_state + tls_state :=
  let '(sslCtx, rsCfg) := st in
  if bool_decide (profile ≠ "") then
    match sslCtx !! profile with
    | Some secret =>
        match create rsCfg secret context with
        | Some rsCfg' => inr (sslCtx, rsCfg')
        | None => inl st
        end
    | None =>
        match getSecret E (tx_namespace tlsContext) profile with
        | None => inl st
        | Some secret =>
            let sslCtx := <[profile := secret]> sslCtx in
            match create rsCfg secret context with
            | Some rsCfg' => inr (sslCtx, rsCfg')
            | None => inl (sslCtx, rsCfg)
            end
        end
    end
  else inr st.

(** The profile switch of [handleTLS]; [inl st] is [return false] with
    the state reached, [inr st] goes on. *)
Definition processProfiles (st : tls_state) (tlsContext : TLSContext)
  : tls_state + tls_state :=
  let '(sslCtx, rsCfg) := st in
  let clientSSL := bp_clientSSL (tx_bigIPSSLProfiles tlsContext) in
  let serverSSL := bp_serverSSL (tx_bigIPSSLProfiles tlsContext) in
  let bp := tx_bigIPSSLProfiles tlsContext in
  if bool_decide (tx_referenceType tlsContext = BIGIP) then
    let v := rc_Virtual rsCfg in
    let v := if bool_decide (clientSSL ≠ "")
             then AddOrUpdateProfile v
                    (ConvertStringToProfileRef clientSSL CustomProfileClient
                       (tx_namespace tlsContext))
             else v in
    let v := if bool_decide (serverSSL ≠ "")
             then AddOrUpdateProfile v
                    (ConvertStringToProfileRef serverSSL CustomProfileServer
                       (tx_namespace tlsContext))
             else v in
    inr (sslCtx, set_Virtual rsCfg v)
  else if bool_decide (tx_referenceType tlsContext = Secret) then
    match secretProfile (createSecretClientSSLProfile E) CustomProfileClient
            tlsContext clientSSL st with
    | inl st1 => inl st1
    | inr st1 =>
        secretProfile (createSecretServerSSLProfile E) CustomProfileServer
          tlsContext serverSSL st1
    end
  else if bool_decide (tx_referenceType tlsContext = Certificate) then
    let client :=
      if bool_decide (bp_key bp ≠ "") && bool_decide (bp_certificate bp ≠ "")
      then createClientSSLProfile E rsCfg (bp_key bp) (bp_certificate bp)
             (tx_name tlsContext) (tx_namespace tlsContext) CustomProfileClient
      else Some rsCfg in
    match client with
    | None => inl st
    | Some rsCfg1 =>
        if bool_decide (bp_destinationCACertificate bp ≠ "") then
          let server :=
            if bool_decide (bp_caCertificate bp ≠ "")
            then createServerSSLProfile E rsCfg1 (bp_destinationCACertificate bp)
                   (bp_caCertificate bp) (tx_name tlsContext) (tx_namespace tlsContext)
                   CustomProfileServer
            else createServerSSLProfile E rsCfg1 (bp_destinationCACertificate bp) ""
                   (tx_name tlsContext) (tx_namespace tlsContext) CustomProfileServer in
          match server with
          | None => inl (sslCtx, rsCfg1)
          | Some rsCfg2 => inr (sslCtx, rsCfg2)
          end
        else inr (sslCtx, rsCfg1)
    end
  else inl st.

(** The loop "TLS Cert/Key" over the pool path references. *)
Definition poolPathDataGroups (rsCfg : ResourceConfig) (tlsContext : TLSContext)
  : ResourceConfig :=
  let serverSSL := bp_serverSSL (tx_bigIPSSLProfiles tlsContext) in
  let vname := v_Name (rc_Virtual rsCfg) in
  foldl (λ rsCfg ref,
           let sslPath := TrimSuffixSlash (tx_hostname tlsContext +:+ ppr_path ref) in
           if bool_decide (tx_termination tlsContext = TLSEdge) then
             set_IntDgMap rsCfg
               (updateDataGroup E (IntDgMap rsCfg) (getRSCfgResName vname EdgeServerSslDgName)
                  DEFAULT_PARTITION (tx_namespace tlsContext) sslPath "false")
           else if bool_decide (tx_termination tlsContext = TLSReencrypt) then
             if bool_decide (serverSSL ≠ "") then
               set_IntDgMap rsCfg
                 (updateDataGroup E (IntDgMap rsCfg)
                    (getRSCfgResName vname ReencryptServerSslDgName) DEFAULT_PARTITION
                    (tx_namespace tlsContext) sslPath
                    (AS3NameFormatter ("crd_" +:+ tx_ipAddress tlsContext +:+ "_tls_client")))
             else rsCfg
           else rsCfg)
        rsCfg (tx_poolPathRefs tlsContext).

(** The part of [handleTLS] for the virtual server on the HTTPS port. *)
Definition handleTLS_https (st : tls_state) (tlsContext : TLSContext) : tls_state * bool :=
  if bool_decide (tx_termination tlsContext = TLSPassthrough) then (st, true)
  else
    match processProfiles st tlsContext with
    | inl st => (st, false)
    | inr (sslCtx, rsCfg) =>
        let rsCfg := poolPathDataGroups rsCfg tlsContext in
        let vname := v_Name (rc_Virtual rsCfg) in
        let hosts dgName rsCfg :=
          set_IntDgMap rsCfg
            (updateDataGroupOfDgName E (IntDgMap rsCfg) (tx_poolPathRefs tlsContext)
               vname dgName (tx_hostname tlsContext) (tx_namespace tlsContext)) in
        if bool_decide (tx_termination tlsContext = TLSReencrypt) then
          if bool_decide (tx_httpTraffic tlsContext = TLSAllowInsecure)
          then ((sslCtx, rsCfg), false)
          else
            ((sslCtx,
              handleDataGroupIRules (hosts ReencryptHostsDgName rsCfg)
                (tx_hostname tlsContext) (tx_termination tlsContext)), true)
        else if bool_decide (tx_termination tlsContext = TLSEdge) then
          ((sslCtx,
            handleDataGroupIRules (hosts EdgeHostsDgName rsCfg)
              (tx_hostname tlsContext) (tx_termination tlsContext)), true)
        else
          ((sslCtx,
            handleDataGroupIRules rsCfg (tx_hostname tlsContext)
              (tx_termination tlsContext)), true)
    end.

(** The part of [handleTLS] for any other virtual server: the HTTP side. *)
Definition handleTLS_http (rsCfg : ResourceConfig) (tlsContext : TLSContext)
  : ResourceConfig :=
  if bool_decide (tx_httpTraffic tlsContext = TLSRedirectInsecure) then
    let vname := v_Name (rc_Virtual rsCfg) in
    let '(ruleName, rsCfg) :=
      if bool_decide (tx_hostname tlsContext = "") then
        let ruleName := getRSCfgResName vname HttpRedirectNoHostIRuleName +:+ "_"
                          +:+ Sprint (tx_httpsPort tlsContext) in
        (ruleName,
         addIRule rsCfg ruleName DEFAULT_PARTITION
           (httpRedirectIRuleNoHost E (tx_httpsPort tlsContext)))
      else
        let ruleName := getRSCfgResName vname HttpRedirectIRuleName +:+ "_"
                          +:+ Sprint (tx_httpsPort tlsContext) in
        (ruleName,
         addIRule rsCfg ruleName DEFAULT_PARTITION
           (httpRedirectIRule E (tx_httpsPort tlsContext) vname DEFAULT_PARTITION)) in
    let ruleName := JoinBigipPath DEFAULT_PARTITION ruleName in
    let rsCfg := set_Virtual rsCfg (Virtual_AddIRule (rc_Virtual rsCfg) ruleName) in
    set_IntDgMap rsCfg
      (updateDataGroupOfDgName E (IntDgMap rsCfg) (tx_poolPathRefs tlsContext)
         vname HttpsRedirectDgName (tx_hostname tlsContext) (tx_namespace tlsContext))
  else rsCfg.

(** [handleTLS]. Reading the port of a nil virtual address panics
    ([None]). *)
Definition handleTLS (st : tls_state) (tlsContext : TLSContext) : option (tls_state * bool) :=
  va ← v_VirtualAddress (rc_Virtual st.2);
  if bool_decide (va_Port va = tx_httpsPort tlsContext)
  then Some (handleTLS_https st tlsContext)
  else Some ((st.1, handleTLS_http st.2 tlsContext), true).

(** [handleRouteTLS]. *)
Definition handleRouteTLS (st : tls_state) (route : routeapi_Route)
    (extdSpec : ExtendedRouteGroupSpec) (servicePort : Z) : option (tls_state * bool) :=
  match rt_TLS route with
  | None => Some (st, false)
  | Some tls =>
      let bigIPSSLProfiles :=
        mkBigIPSSLProfiles "" "" (tc_Key tls) (tc_Certificate tls) (tc_CACertificate tls)
          (tc_DestinationCACertificate tls) in
      let poolPathRefs :=
        omap (λ pl,
                if bool_decide (pool_Name pl =
                                formatPoolName (rt_Namespace route) (rt_To_Name route)
                                  servicePort "")
                then Some (mkPoolPathRef (rt_Path route)
                             (formatPoolName (rt_Namespace route) (rt_To_Name route)
                                (ios_IntVal (pool_ServicePort pl)) ""))
                else None)
             (Pools st.2) in
      handleTLS st
        (mkTLSContext (rt_Name route) (rt_Namespace route) Route Certificate
           (rt_Host route) DEFAULT_HTTPS_PORT (VServerAddr extdSpec)
           (tc_Termination tls) (ToLower (tc_InsecureEdgeTerminationPolicy tls))
           poolPathRefs bigIPSSLProfiles)
  end.
End TLSResolver.

(** ** The controller and the resource store *)

Record ResourceConfigRequest := mkResourceConfigRequest {
  req_ltmConfig : gmap string (gmap string ResourceConfig);
  req_shareNodes : bool;
  req_gtmConfig : gmap string WideIP;
  req_defaultRouteDomain : Z;
}.

(** A call [go ctlr.updateRouteAdmitStatus(rscKey, reason, message,
    status)]: the write-back is dispatched, not awaited. *)
Record AdmitStatus := mkAdmitStatus {
  as_rscKey : string;
  as_reason : string;
  as_status : bool;
}.

Record Controller := mkController {
  resources : ResourceStore;
  processedHostPathMap : gmap string Z;
  SSLContext : gmap string SecretObj;
  PoolMemberType : string;
  shareNodes : bool;
  defaultRouteDomain : Z;
  initState : bool;
  admitStatusUpdates : list AdmitStatus;
  postedConfigs : list ResourceConfigRequest;
}.

Definition set_resources (c : Controller) (rs : ResourceStore) : Controller :=
  mkController rs (processedHostPathMap c) (SSLContext c) (PoolMemberType c)
    (shareNodes c) (defaultRouteDomain c) (initState c) (admitStatusUpdates c)
    (postedConfigs c).

Definition set_processedHostPathMap (c : Controller) (m : gmap string Z) : Controller :=
  mkController (resources c) m (SSLContext c) (PoolMemberType c)
    (shareNodes c) (defaultRouteDomain c) (initState c) (admitStatusUpdates c)
    (postedConfigs c).

Definition set_SSLContext (c : Controller) (m : gmap string SecretObj) : Controller :=
  mkController (resources c) (processedHostPathMap c) m (PoolMemberType c)
    (shareNodes c) (defaultRouteDomain c) (initState c) (admitStatusUpdates c)
    (postedConfigs c).

Definition add_admitStatus (c : Controller) (a : AdmitStatus) : Controller :=
  mkController (resources c) (processedHostPathMap c) (SSLContext c) (PoolMemberType c)
    (shareNodes c) (defaultRouteDomain c) (initState c) (admitStatusUpdates c ++ [a])
    (postedConfigs c).

Definition set_ltmConfig (rs : ResourceStore) (m : gmap string (gmap string ResourceConfig))
  : ResourceStore :=
  mkResourceStore m (ltmConfigCache rs) (dnsConfig rs) (dnsConfigCache rs)
    (extdSpecMap rs) (invertedNamespaceLabelMap rs) (processedNativeResources rs).

Definition set_processedNativeResources (rs : ResourceStore)
    (p : gset (string * string * string)) : ResourceStore :=
  mkResourceStore (ltmConfig rs) (ltmConfigCache rs) (dnsConfig rs) (dnsConfigCache rs)
    (extdSpecMap rs) (invertedNamespaceLabelMap rs) p.

(** [getPartitionResourceMap]: the partition's map, created when absent. *)
Definition getPartitionResourceMap (rs : ResourceStore) (partition : string)
  : ResourceStore * gmap string ResourceConfig :=
  match ltmConfig rs !! partition with
  | Some rsMap => (rs, rsMap)
  | None => (set_ltmConfig rs (<[partition := ∅]> (ltmConfig rs)), ∅)
  end.

(** [getResource]; an error is [None]. *)
Definition getResource (rs : ResourceStore) (partition name : string) : option ResourceConfig :=
  rsMap ← ltmConfig rs !! partition;
  rsMap !! name.

(** [ResourceStore.deleteVirtualServer]. *)
Definition deleteVirtualServer (rs : ResourceStore) (partition rsName : string)
  : ResourceStore :=
  let '(rs, rsMap) := getPartitionResourceMap rs partition in
  set_ltmConfig rs (<[partition := delete rsName rsMap]> (ltmConfig rs)).

(** The assignment [rsMap[name] = rscfg] on [getPartitionResourceMap]. *)
Definition storeVirtualServer (rs : ResourceStore) (partition name : string)
    (rscfg : ResourceConfig) : ResourceStore :=
  let '(rs, rsMap) := getPartitionResourceMap rs partition in
  set_ltmConfig rs (<[partition := <[name := rscfg]> rsMap]> (ltmConfig rs)).

(** ** Publishing (resourceConfig.go, nativeResourceWorker.go) *)

(** [getLTMConfigCopy]. *)
Definition getLTMConfigCopy (rs : ResourceStore) : gmap string (gmap string ResourceConfig) :=
  foldl (λ ltm '(prtn, rsMap),
           <[prtn := foldl (λ m '(rsName, res), <[rsName := res]> m) ∅ (map_to_list rsMap)]> ltm)
        ∅ (map_to_list (ltmConfig rs)).

(** [getGTMConfigCopy]: every wide IP is written into the cache of the
    store and the fresh map is returned as it was made. *)
Definition getGTMConfigCopy (rs : ResourceStore) : ResourceStore * gmap string WideIP :=
  let dnsConfig' : gmap string WideIP := ∅ in
  let cache :=
    foldl (λ cache '(dominName, wip), <[dominName := wip]> cache)
          (dnsConfigCache rs) (map_to_list (dnsConfig rs)) in
  (mkResourceStore (ltmConfig rs) (ltmConfigCache rs) (dnsConfig rs) cache
     (extdSpecMap rs) (invertedNamespaceLabelMap rs) (processedNativeResources rs),
   dnsConfig').

(** [updateCaches]. *)
Definition updateCaches (rs : ResourceStore) : ResourceStore :=
  let ltmCache := getLTMConfigCopy rs in
  let rs := mkResourceStore (ltmConfig rs) ltmCache (dnsConfig rs) (dnsConfigCache rs)
              (extdSpecMap rs) (invertedNamespaceLabelMap rs) (processedNativeResources rs) in
  let '(rs, dnsCache) := getGTMConfigCopy rs in
  mkResourceStore (ltmConfig rs) (ltmConfigCache rs) (dnsConfig rs) dnsCache
    (extdSpecMap rs) (invertedNamespaceLabelMap rs) (processedNativeResources rs).

(** [isConfigUpdated]; [reflect.DeepEqual] on the maps is equality. *)
Definition isConfigUpdated (rs : ResourceStore) : bool :=
  negb (bool_decide (ltmConfig rs = ltmConfigCache rs))
  || negb (bool_decide (dnsConfig rs = dnsConfigCache rs)).

(** [postResourceConfigRequest]; the request handed to [Agent.PostConfig]
    is appended to [postedConfigs]. [getLTMConfigDeepCopy] is not among
    the sources. Modelled from the spec: the copy holds the virtual-server
    configs of all partitions, as [getLTMConfigCopy] gives them. *)
Definition postResourceConfigRequest (ctlr : Controller) : Controller :=
  if isConfigUpdated (resources ctlr) then
    let ltm := getLTMConfigCopy (resources ctlr) in
    let '(rs, gtm) := getGTMConfigCopy (resources ctlr) in
    let config := mkResourceConfigRequest ltm (shareNodes ctlr) gtm (defaultRouteDomain ctlr) in
    mkController (updateCaches rs) (processedHostPathMap ctlr) (SSLContext ctlr)
      (PoolMemberType ctlr) (shareNodes ctlr) (defaultRouteDomain ctlr) false
      (admitStatusUpdates ctlr) (postedConfigs ctlr ++ [config])
  else ctlr.

(** The tail of [processNativeResource], after the event has been
    handled: the publish check runs when the queue is empty. *)
Definition publishCheck (queueLen : nat) (ctlr : Controller) : Controller :=
  if (queueLen =? 0)%nat then postResourceConfigRequest ctlr else ctlr.

(** ** Route groups (nativeResourceWorker.go) *)

(** The key of a route in [processedHostPathMap]. *)
Definition hostPathKey (route : routeapi_Route) : string :=
  if bool_decide (rt_Path route = "/") || (String.length (rt_Path route) =? 0)%nat
  then rt_Host route +:+ "/"
  else rt_Host route +:+ rt_Path route.

(** The comparator handed to [sort.Slice] by [getOrderedRoutes]. *)
Definition routeLess (ri rj : routeapi_Route) : bool :=
  if bool_decide (rt_Host ri = rt_Host rj)
     && (((String.length (rt_Path ri) =? 0)%nat || (String.length (rt_Path rj) =? 0)%nat)
         && (bool_decide (rt_Path ri = "/") || bool_decide (rt_Path rj = "/")))
  then bool_decide (rt_CreationTimestamp ri < rt_CreationTimestamp rj)
  else
    String.ltb (rt_Host ri) (rt_Host rj)
    || (bool_decide (rt_Host ri = rt_Host rj)
        && bool_decide (rt_Path ri = rt_Path rj)
        && bool_decide (rt_CreationTimestamp ri < rt_CreationTimestamp rj))
    || (bool_decide (rt_Host ri = rt_Host rj)
        && String.ltb (rt_Path ri) (rt_Path rj)).

(** The order of [getOrderedRoutes] in words: a route [a] may stand before
    a route [b] when the host of [a] is not above the host of [b] and, for
    equal hosts, either one path is empty and one is the root and [a] was
    not created after [b], or the path of [a] is not above the path of [b]
    and, for equal paths, [a] was not created after [b]. *)
Definition oneEmptyOneRoot (pa pb : string) : bool :=
  ((String.length pa =? 0)%nat || (String.length pb =? 0)%nat)
  && (bool_decide (pa = "/") || bool_decide (pb = "/")).

Definition routeOrdered (a b : routeapi_Route) : Prop :=
  String.ltb (rt_Host b) (rt_Host a) = false ∧
  (rt_Host a = rt_Host b →
   if oneEmptyOneRoot (rt_Path a) (rt_Path b)
   then rt_CreationTimestamp a ≤ rt_CreationTimestamp b
   else String.ltb (rt_Path b) (rt_Path a) = false ∧
        (rt_Path a = rt_Path b → rt_CreationTimestamp a ≤ rt_CreationTimestamp b)).


Definition path_wf (r : routeapi_Route) : Prop :=
  rt_Path r = "" ∨ HasPrefix (rt_Path r) "/" = true.


(** The path as it enters the host-path key. *)
Definition normPath (p : string) : string :=
  if bool_decide (p = "/") || (String.length p =? 0)%nat then "/" else p.

(** The order by host, then normalised path, then creation time. *)
Definition routeKeyLt (a b : routeapi_Route) : bool :=
  if bool_decide (rt_Host a = rt_Host b) then
    if bool_decide (normPath (rt_Path a) = normPath (rt_Path b))
    then bool_decide (rt_CreationTimestamp a < rt_CreationTimestamp b)
    else String.ltb (normPath (rt_Path a)) (normPath (rt_Path b))
  else String.ltb (rt_Host a) (rt_Host b).

(** [updateHostPathMap]: claims of the same timestamp under another key
    are dropped, then the claim is recorded. *)
Definition updateHostPathMap (m : gmap string Z) (timestamp : Z) (key : string)
  : gmap string Z :=
  <[key := timestamp]>
    (filter (λ kv, ¬ (kv.2 = timestamp ∧ kv.1 ≠ key)) m).

(** [deleteHostPathMapEntry]. *)
Definition deleteHostPathMapEntry (m : gmap string Z) (route : routeapi_Route)
  : gmap string Z :=
  filter (λ kv, ¬ (kv.2 = rt_CreationTimestamp route ∧ kv.1 = hostPathKey route)) m.

Definition doRoutesHandleHTTP (routes : list routeapi_Route) : bool :=
  existsb (λ route,
             match rt_TLS route with
             | None => true
             | Some tls =>
                 bool_decide (tc_InsecureEdgeTerminationPolicy tls
                              = InsecureEdgeTerminationPolicyAllow)
                 || bool_decide (tc_InsecureEdgeTerminationPolicy tls
                                 = InsecureEdgeTerminationPolicyRedirect)
             end) routes.

Definition getBasicVirtualPorts : list portStruct :=
  [mkPortStruct "http" DEFAULT_HTTP_PORT; mkPortStruct "https" DEFAULT_HTTPS_PORT].

Definition getVirtualPortsForRoutes (routes : list routeapi_Route) : list portStruct :=
  if existsb isSecureRoute routes then getBasicVirtualPorts
  else [mkPortStruct "http" DEFAULT_HTTP_PORT].

(** [split_ip_with_route_domain]; [strconv.Atoi] accepts an optional sign
    and decimal digits. *)
Fixpoint split_percent_aux (s cur : string) : list string :=
  match s with
  | EmptyString => [cur]
  | String c s' =>
      if Ascii.eqb c "%"%char then cur :: split_percent_aux s' ""
      else split_percent_aux s' (cur +:+ String c "")
  end.

Fixpoint all_digits (s : string) : bool :=
  match s with
  | EmptyString => true
  | String c s' =>
      let n := nat_of_ascii c in ((48 <=? n) && (n <=? 57))%nat && all_digits s'
  end.

Definition Atoi_ok (s : string) : bool :=
  match s with
  | EmptyString => false
  | String c s' =>
      if Ascii.eqb c "+"%char || Ascii.eqb c "-"%char
      then negb (bool_decide (s' = "")) && all_digits s'
      else all_digits s
  end.

Definition split_ip_with_route_domain (address : string) : string * string :=
  match split_percent_aux address "" with
  | [ip; rd] => if Atoi_ok rd then (ip, rd) else (address, "")
  | ip :: _ => (ip, "")
  | [] => ("", "")
  end.

Section RouteGroups.
Context (E : Externals).

(** [Virtual.SetVirtualAddress]. *)
Definition SetVirtualAddress (v : Virtual) (bindAddr : string) (port : Z) : Virtual :=
  let mk dest va :=
    mkVirtual (v_Name v) (v_Partition v) (v_Enabled v) dest va (v_SNAT v) (v_WAF v)
      (v_IRules v) (v_AllowSourceRange v) (v_Policies v) (v_Profiles v) in
  if bool_decide (bindAddr = "") && bool_decide (port = 0) then mk "" None
  else
    let '(ip, rd) := split_ip_with_route_domain bindAddr in
    let rd := if (0 <? String.length rd)%nat then "%" +:+ rd else rd in
    let dest :=
      match ParseIP E ip with
      | Some true => "/" +:+ v_Partition v +:+ "/" +:+ ip +:+ rd +:+ ":" +:+ Sprint port
      | Some false => "/" +:+ v_Partition v +:+ "/" +:+ ip +:+ rd +:+ "." +:+ Sprint port
      | None => ""
      end in
    mk dest (Some (mkVirtualAddress bindAddr port)).

(** [getServicePort]: the error, if any, and the port. *)
Definition getServicePort (route : routeapi_Route) : option string * Z :=
  if negb (essentialInformerFound E (rt_Namespace route))
  then (Some "Informer not found for namespace", 0)
  else
    let svcName := rt_To_Name route in
    match rt_Port route with
    | Some targetPort =>
        if bool_decide (ios_StrVal targetPort = "") then (None, ios_IntVal targetPort)
        else
          match GetServicePort E (rt_Namespace route) svcName (ios_StrVal targetPort) with
          | Some port => (None, port)
          | None => (Some "Error while processing port for route", 0)
          end
    | None =>
        match GetServicePort E (rt_Namespace route) svcName "" with
        | Some port => (None, port)
        | None => (Some "Error while processing port for route", 0)
        end
    end.

(** The checks of [checkValidRoute] that follow the host-path claim:
    the TLS references of the extended spec or the route's certificate,
    then the service. [Some None] passes, [Some (Some reason)] rejects;
    reading [route.Spec.TLS.Termination] of a route without TLS block
    panics ([None]). *)
Definition validateRoute (route : routeapi_Route)
    (extdSpec : option ExtendedRouteGroupSpec) : option (option string) :=
  let serviceCheck :=
    match (getServicePort route).1 with
    | Some _ => Some (Some "ServiceNotFound")
    | None => Some None
    end in
  let certificateCheck :=
    match rt_TLS route with
    | Some tls =>
        if negb (bool_decide (tc_Termination tls = TLSPassthrough)) then
          if checkCertificateHost E (rt_Host route) (tc_Certificate tls) (tc_Key tls)
          then serviceCheck
          else Some (Some "ExtendedValidationFailed")
        else serviceCheck
    | None => serviceCheck
    end in
  match extdSpec with
  | Some spec =>
      if negb (bool_decide (ers_TLS spec = mkTLS "" "" ""))
         && bool_decide (tls_Reference (ers_TLS spec) = BIGIP)
      then
        tls ← rt_TLS route;
        if negb (bool_decide (tc_Termination tls = TLSPassthrough)) then
          if bool_decide (tls_ClientSSL (ers_TLS spec) = "")
          then Some (Some "ExtendedValidationFailed")
          else if bool_decide (tls_ServerSSL (ers_TLS spec) = "")
                  && bool_decide (tc_Termination tls = TLSReencrypt)
          then Some (Some "ExtendedValidationFailed")
          else serviceCheck
        else certificateCheck
      else certificateCheck
  | None => certificateCheck
  end.

(** [checkValidRoute]: the host-path claim first, then the checks
    above. A rejection dispatches the admission status with its
    reason. *)
Definition checkValidRoute (ctlr : Controller) (route : routeapi_Route)
    (extdSpec : option ExtendedRouteGroupSpec) : option (Controller * bool) :=
  let key := hostPathKey route in
  let rscKey := rt_Namespace route +:+ "/" +:+ rt_Name route in
  let reject reason := Some (add_admitStatus ctlr (mkAdmitStatus rscKey reason false), false) in
  let claimed :=
    match processedHostPathMap ctlr !! key with
    | Some processedRouteTimestamp =>
        bool_decide (processedRouteTimestamp < rt_CreationTimestamp route)
    | None => false
    end in
  if claimed then reject "HostAlreadyClaimed"
  else
    verdict ← validateRoute route extdSpec;
    match verdict with
    | Some reason => reject reason
    | None => Some (ctlr, true)
    end.

(** [getOrderedRoutes]: the routes of the informer's store, all of them
    for the empty namespace and those indexed under the namespace
    otherwise, sorted with [routeLess]. Without an informer the result
    is nil. *)
Definition getOrderedRoutes (namespace : string) : list routeapi_Route :=
  match routeInformerStore E namespace with
  | None => []
  | Some store =>
      let resources :=
        if bool_decide (namespace = "") then store
        else filter (λ rt, rt_Namespace rt = namespace) store in
      sort_Slice routeLess resources
  end.

(** The inner loop of [getGroupedRoutes]: validation, then the claim. *)
Fixpoint resolveRoutes (ctlr : Controller) (orderedRoutes : list routeapi_Route)
    (extdSpec : ExtendedRouteGroupSpec) (assocRoutes : list routeapi_Route)
  : option (Controller * list routeapi_Route) :=
  match orderedRoutes with
  | [] => Some (ctlr, assocRoutes)
  | route :: rest =>
      '(ctlr, valid) ← checkValidRoute ctlr route (Some extdSpec);
      if valid : bool then
        let ctlr :=
          set_processedHostPathMap ctlr
            (updateHostPathMap (processedHostPathMap ctlr)
               (rt_CreationTimestamp route) (hostPathKey route)) in
        resolveRoutes ctlr rest extdSpec (assocRoutes ++ [route])
      else resolveRoutes ctlr rest extdSpec assocRoutes
  end.

Fixpoint groupNamespaces (ctlr : Controller) (nss : list string)
    (extdSpec : ExtendedRouteGroupSpec) (assocRoutes : list routeapi_Route)
  : option (Controller * list routeapi_Route) :=
  match nss with
  | [] => Some (ctlr, assocRoutes)
  | namespace :: rest =>
      '(ctlr, assocRoutes) ←
        resolveRoutes ctlr (getOrderedRoutes namespace) extdSpec assocRoutes;
      groupNamespaces ctlr rest extdSpec assocRoutes
  end.

(** [getGroupedRoutes]; a route group missing from the map is a nil
    dereference. *)
Definition getGroupedRoutes (ctlr : Controller) (routeGroup : string)
    (extdSpec : ExtendedRouteGroupSpec) : option (Controller * list routeapi_Route) :=
  parsed ← extdSpecMap (resources ctlr) !! routeGroup;
  groupNamespaces ctlr (namespaces parsed) extdSpec [].
End RouteGroups.

(** ** Building the virtual servers of a route group *)

Section ProcessRoutes.
Context (E : Externals).

(** [getVirtualServer] is declared outside the two files; it hands out
    the stored configuration, nil when there is none, as [getResource]
    does. *)
Definition getVirtualServer (ctlr : Controller) (partition rsName : string)
  : option ResourceConfig :=
  getResource (resources ctlr) partition rsName.

(** The state of the loop over the routes of one virtual server. *)
Record build_state := mkBuildState {
  bs_ctlr : Controller;
  bs_rsCfg : ResourceConfig;
  bs_processingError : bool;
}.

(** The loop [for _, rt := range routes] of [processRoutes]; it stops at
    the first processing error. *)
Fixpoint routesLoop (ctlr : Controller) (rsCfg : ResourceConfig)
    (extdSpec : ExtendedRouteGroupSpec) (ps : portStruct)
    (routes : list routeapi_Route) : option build_state :=
  match routes with
  | [] => Some (mkBuildState ctlr rsCfg false)
  | rt :: rest =>
      let md := MetaData rsCfg in
      let rsCfg :=
        set_MetaData rsCfg
          (mkMetaData (md_ResourceType md) (md_Protocol md)
             (<[rt_Namespace rt +:+ "/" +:+ rt_Name rt := Route]> (md_baseResources md))
             (md_hosts md)) in
      let port := (getServicePort E rt).2 in
      let servicePort := mkIntOrString port "" in
      match prepareResourceConfigFromRoute E rsCfg rt servicePort ps with
      | Panicked => None
      | Failed rsCfg _ => Some (mkBuildState ctlr rsCfg true)
      | Done rsCfg =>
          let markProcessed ctlr :=
            set_resources ctlr
              (set_processedNativeResources (resources ctlr)
                 ({[ (Route, rt_Namespace rt, rt_Name rt) ]}
                  ∪ processedNativeResources (resources ctlr))) in
          if isSecureRoute rt then
            '(st, processed) ←
              handleRouteTLS E (SSLContext ctlr, rsCfg) rt extdSpec port;
            let ctlr := set_SSLContext ctlr st.1 in
            if processed : bool
            then routesLoop (markProcessed ctlr) st.2 extdSpec ps rest
            else Some (mkBuildState ctlr st.2 true)
          else routesLoop (markProcessed ctlr) rsCfg extdSpec ps rest
      end
  end.

(** The fresh [ResourceConfig] of one virtual server. *)
Definition newResourceConfig (partition rsName : string)
    (extdSpec : ExtendedRouteGroupSpec) (ps : portStruct) : ResourceConfig :=
  let v := mkVirtual rsName partition true "" None "" "" [] [] [] [] in
  let v := SetVirtualAddress E v (VServerAddr extdSpec) (ps_port ps) in
  let v := mkVirtual (v_Name v) (v_Partition v) (v_Enabled v) (v_Destination v)
             (v_VirtualAddress v) (v_SNAT v) (v_WAF v) (v_IRules v)
             (AllowSourceRange extdSpec) (v_Policies v) (v_Profiles v) in
  mkResourceConfig (mkMetaData VirtualServer (ps_protocol ps) ∅ []) v [] [] [] ∅ ∅ ∅.

Definition updatePoolMembers (ctlr : Controller) (rsCfg : ResourceConfig)
    (nss : list string) : ResourceConfig :=
  foldl (λ rsCfg namespace,
           if bool_decide (PoolMemberType ctlr = NodePort)
           then updatePoolMembersForNodePort E rsCfg namespace
           else updatePoolMembersForCluster E rsCfg namespace)
        rsCfg nss.

(** The state of the loop over the port structs: the controller, the
    temporary map [vsMap] and [processingError]. *)
Record group_state := mkGroupState {
  gs_ctlr : Controller;
  gs_vsMap : gmap string ResourceConfig;
  gs_processingError : bool;
}.

(** The loop [for _, portStruct := range portStructs] of
    [processRoutes]. *)
Fixpoint portsLoop (ctlr : Controller) (vsMap : gmap string ResourceConfig)
    (routeGroup partition : string) (extdSpec : ExtendedRouteGroupSpec)
    (routes : list routeapi_Route) (portStructs : list portStruct)
  : option group_state :=
  match portStructs with
  | [] => Some (mkGroupState ctlr vsMap false)
  | ps :: rest =>
      let rsName := frameRouteVSName (VServerName extdSpec) (VServerAddr extdSpec) ps in
      if bool_decide (ps_protocol ps = "http") && negb (doRoutesHandleHTTP routes) then
        portsLoop
          (set_resources ctlr (deleteVirtualServer (resources ctlr) partition rsName))
          vsMap routeGroup partition extdSpec routes rest
      else
        let rsCfg := newResourceConfig partition rsName extdSpec ps in
        let rsCfg := handleRouteGroupExtendedSpec rsCfg extdSpec in
        bs ← routesLoop ctlr rsCfg extdSpec ps routes;
        rsCfg ← removeUnusedHealthMonitors (bs_rsCfg bs);
        if bs_processingError bs then Some (mkGroupState (bs_ctlr bs) vsMap true)
        else
          parsed ← extdSpecMap (resources (bs_ctlr bs)) !! routeGroup;
          let rsCfg := updatePoolMembers (bs_ctlr bs) rsCfg (namespaces parsed) in
          portsLoop (bs_ctlr bs) (<[rsName := rsCfg]> vsMap)
            routeGroup partition extdSpec routes rest
  end.

(** [processRoutes]. After the port loop the function returns nil,
    with or without a processing error. *)
Definition processRoutes (ctlr : Controller) (routeGroup : string) (triggerDelete : bool)
  : outcome Controller :=
  match getExtendedRouteSpec (resources ctlr) routeGroup with
  | None => Failed ctlr "extended Route Spec not available for RouteGroup/Namespace"
  | Some extdSpec =>
      (* the second value of the call: the partition of the map entry *)
      match extdSpecMap (resources ctlr) !! routeGroup with
      | None => Panicked
      | Some parsed =>
          let partition := partition parsed in
          match getGroupedRoutes E ctlr routeGroup extdSpec with
          | None => Panicked
          | Some (ctlr, routes) =>
              if triggerDelete || (length routes =? 0)%nat then
                Done
                  (foldl (λ ctlr ps,
                            let rsName :=
                              frameRouteVSName (VServerName extdSpec)
                                (VServerAddr extdSpec) ps in
                            match getVirtualServer ctlr partition rsName with
                            | Some _ =>
                                set_resources ctlr
                                  (deleteVirtualServer (resources ctlr) partition rsName)
                            | None => ctlr
                            end)
                         ctlr getBasicVirtualPorts)
              else
                match portsLoop ctlr ∅ routeGroup partition extdSpec routes
                        (getVirtualPortsForRoutes routes) with
                | None => Panicked
                | Some gs =>
                    if negb (gs_processingError gs) then
                      Done
                        (foldl (λ ctlr '(name, rscfg),
                                  set_resources ctlr
                                    (storeVirtualServer (resources ctlr) partition name rscfg))
                               (gs_ctlr gs) (map_to_list (gs_vsMap gs)))
                    else Done (gs_ctlr gs)
                end
          end
      end
  end.

(** The [Route] case of [processNativeResource] for an event that is no
    deletion and is not skipped: [processRoutes] on the route's group,
    an error marking the event retryable. *)
Definition processRouteEvent (ctlr : Controller) (route : routeapi_Route)
  : option (Controller * bool) :=
  match invertedNamespaceLabelMap (resources ctlr) !! rt_Namespace route with
  | Some routeGroup =>
      match processRoutes ctlr routeGroup false with
      | Done ctlr => Some (ctlr, false)
      | Failed ctlr _ => Some (ctlr, true)
      | Panicked => None
      end
  | None => Some (ctlr, false)
  end.
End ProcessRoutes.

(** ** Vocabulary of the host-path claims *)

(** The route passes the checks that follow the claim check. *)
Definition passes (E : Externals) (spec : ExtendedRouteGroupSpec) (r : routeapi_Route)
  : Prop :=
  validateRoute E r (Some spec) = Some None.

(** The admission status dispatched when a route loses its claim. *)
Definition hostAlreadyClaimed (r : routeapi_Route) : AdmitStatus :=
  mkAdmitStatus (rt_Namespace r +:+ "/" +:+ rt_Name r) "HostAlreadyClaimed" false.

(** ** Vocabulary of the build properties *)

(** What a collaborator that creates TLS profiles or fills in pool members
    leaves as it is: the monitors, the monitor names of the pools and the
    address of the virtual server. *)
Definition same_monitoring (rc rc' : ResourceConfig) : Prop :=
  Monitors rc' = Monitors rc ∧
  pool_MonitorNames <$> Pools rc' = pool_MonitorNames <$> Pools rc ∧
  v_VirtualAddress (rc_Virtual rc') = v_VirtualAddress (rc_Virtual rc).

Record collaborators_frame (E : Externals) : Prop := mkCollaboratorsFrame {
  frame_secret_client : ∀ rc s c rc',
    createSecretClientSSLProfile E rc s c = Some rc' → same_monitoring rc rc';
  frame_secret_server : ∀ rc s c rc',
    createSecretServerSSLProfile E rc s c = Some rc' → same_monitoring rc rc';
  frame_client : ∀ rc k c n ns ctx rc',
    createClientSSLProfile E rc k c n ns ctx = Some rc' → same_monitoring rc rc';
  frame_server : ∀ rc k c n ns ctx rc',
    createServerSSLProfile E rc k c n ns ctx = Some rc' → same_monitoring rc rc';
  frame_nodeport : ∀ rc ns, same_monitoring rc (updatePoolMembersForNodePort E rc ns);
  frame_cluster : ∀ rc ns, same_monitoring rc (updatePoolMembersForCluster E rc ns);
}.

(** Every monitor marked in use is named by a pool and matches the host
    and path of one of the routes. *)
Definition monitors_bound (routes : list routeapi_Route) (rc : ResourceConfig) : Prop :=
  ∀ m, m ∈ Monitors rc → mon_InUse m = true →
    ∃ route pool, route ∈ routes ∧
      HasPrefix (mon_Path m) (rt_Host route +:+ rt_Path route) = true ∧
      pool ∈ Pools rc ∧ mkMonitorName (mon_Name m) ∈ pool_MonitorNames pool.

(** The monitors of a configuration as the build leaves it: all in use
    and bound. *)
Definition monitors_used (routes : list routeapi_Route) (rc : ResourceConfig) : Prop :=
  Forall (λ m, mon_InUse m = true) (Monitors rc) ∧ monitors_bound routes rc.

(** A step of the build keeps the bound monitors bound and the address of
    the virtual server. *)
Definition build_step (routes : list routeapi_Route) (rc rc' : ResourceConfig) : Prop :=
  (monitors_bound routes rc → monitors_bound routes rc') ∧
  v_VirtualAddress (rc_Virtual rc') = v_VirtualAddress (rc_Virtual rc).

(** The state a call leaves behind, unless it panics. *)
Definition final_state {S} (o : outcome S) : option S :=
  match o with
  | Done s => Some s
  | Failed s _ => Some s
  | Panicked => None
  end.

(** Nothing new in the store of virtual servers: whatever [rs'] holds,
    [rs] held already. *)
Definition no_new (rs rs' : ResourceStore) : Prop :=
  ∀ p n rc, getResource rs' p n = Some rc → getResource rs p n = Some rc.

(** ** Sample inputs *)

Definition idg_sample : InternalDataGroup :=
  mkIDG "dg" "Common" [mkIDGRecord "a.com" "x"; mkIDGRecord "c.com" "y"].

Definition spec_gw : ExtendedRouteGroupSpec :=
  mkExtendedRouteGroupSpec "gw" "10.8.3.11" [] "" "" [] [] (mkTLS "" "" "") (mkMeta false).

Definition spec_gw2 : ExtendedRouteGroupSpec :=
  mkExtendedRouteGroupSpec "gw2" "10.8.3.11" [] "" "" [] [] (mkTLS "" "" "") (mkMeta false).

Definition parsed_override : extendedParsedSpec :=
  mkExtendedParsedSpec true (Some spec_gw2) (Some spec_gw) ["default"] "test".

Definition empty_store : ResourceStore :=
  mkResourceStore ∅ ∅ ∅ ∅ ∅ ∅ ∅.

Definition store_override : ResourceStore :=
  mkResourceStore ∅ ∅ ∅ ∅ {[ "default" := parsed_override ]} ∅ ∅.

Definition parsed_gw : extendedParsedSpec :=
  mkExtendedParsedSpec false None (Some spec_gw) ["default"] "test".



(** A route named [n] in namespace [ns], created at [ts]. *)
Definition plain_route (n ns : string) (ts : Z) (host path : string) : routeapi_Route :=
  mkRoute n ns ts ∅ host path "svc" None None.

Definition tls_route (n ns : string) (ts : Z) (host path termination insecure : string)
  : routeapi_Route :=
  mkRoute n ns ts ∅ host path "svc" None
    (Some (mkTLSConfig termination "" "" "" "" insecure)).

(** One implementation of the collaborators: rules that match the URI and
    forward to the pool, every service port resolved to 8080, every
    certificate accepted, TLS profile creation always succeeding, and the
    informer of every namespace holding the route list [store]. *)
Definition sample_externals (store : list routeapi_Route) : Externals :=
  {| createRule := λ uri poolName ruleName _,
       Some (mkRule ruleName uri 0 [mkAction "0" poolName]
               [mkCondition "0" true false [uri]]);
     getRewriteActions := λ _ _ _, Some [];
     formatVirtualServerRuleName := λ host ns path pool,
       "vs_" +:+ host +:+ path +:+ "_" +:+ pool;
     createPolicy := λ rls name part,
       Some (mkPolicy name part [PolicyControlForward] ["http"] rls);
     rules_Less := λ a b, String.ltb (rule_FullURI a) (rule_FullURI b);
     GetRouteBackends := λ r, [mkRouteBackend (rt_To_Name r) 100];
     IsRouteABDeployment := λ _, false;
     essentialInformerFound := λ _, true;
     GetServicePort := λ _ _ _, Some 8080;
     checkCertificateHost := λ _ _ _, true;
     routeInformerStore := λ _, Some store;
     updatePoolMembersForNodePort := λ rc _, rc;
     updatePoolMembersForCluster := λ rc _, rc;
     getSecret := λ _ _, None;
     createSecretClientSSLProfile := λ rc _ _, Some rc;
     createSecretServerSSLProfile := λ rc _ _, Some rc;
     createClientSSLProfile := λ rc _ _ _ _ _, Some rc;
     createServerSSLProfile := λ rc _ _ _ _ _, Some rc;
     updateDataGroup := λ m _ _ _ _ _, m;
     updateDataGroupOfDgName := λ m _ _ _ _ _, m;
     getTLSIRule := λ _, "tls";
     ParseIP := λ _, Some true;
     httpRedirectIRule := λ _ _ _, "redirect";
     httpRedirectIRuleNoHost := λ _, "redirect_nohost";
  |}.

Definition empty_policy : Policy :=
  mkPolicy "pol" "test" [PolicyControlForward] ["http"] [].

Definition route_exact : routeapi_Route := plain_route "r1" "default" 1 "a.com" "/".
Definition route_wild : routeapi_Route := plain_route "r2" "default" 2 "*.b.com" "/".

Definition wip_sample : WideIP := mkWideIP "a.example.com" "A" "round-robin".

(** A controller whose store holds one wide IP and no virtual server. *)
Definition ctlr_dns : Controller :=
  mkController
    (mkResourceStore ∅ ∅ {[ "a.example.com" := wip_sample ]} ∅ ∅ ∅ ∅)
    ∅ ∅ "cluster" false 0 false [] [].

Definition route_app : routeapi_Route := plain_route "app" "default" 1 "example.com" "/app".
Definition route_root : routeapi_Route := plain_route "root" "default" 2 "example.com" "/".

(** The scenario of the specification: R1 created at 1 and R2 created at
    2 claim [example.com/]. *)
Definition route_R1 : routeapi_Route := plain_route "R1" "default" 1 "example.com" "/".



(** A spec with two health monitors, one for the host of the routes below
    and one for a host no route has. *)
Definition spec_monitored : ExtendedRouteGroupSpec :=
  mkExtendedRouteGroupSpec "gw" "10.8.3.11" [] "" "" []
    [mkHealthMonitorSpec "example.com/" "" "HTTP GET /" "ok" 5 10;
     mkHealthMonitorSpec "unused.example.com/" "" "HTTP GET /" "ok" 5 10]
    (mkTLS "" "" "") (mkMeta false).

Definition ctlr_monitored : Controller :=
  mkController
    (mkResourceStore ∅ ∅ ∅ ∅
       {[ "default" := mkExtendedParsedSpec false None (Some spec_monitored) ["default"] "test" ]}
       {[ "default" := "default" ]} ∅)
    ∅ ∅ "cluster" false 0 false [] [].

(** The scenario of the specification: a reencrypt route that allows
    insecure traffic. *)
Definition route_reencrypt_allow : routeapi_Route :=
  tls_route "secure" "default" 1 "example.com" "/" "reencrypt" "Allow".

(** A virtual server as the store holds it after an earlier build. *)
Definition vs_sample (name protocol : string) (port : Z) : ResourceConfig :=
  mkResourceConfig (mkMetaData VirtualServer protocol ∅ [])
    (mkVirtual name "test" true "" (Some (mkVirtualAddress "10.8.3.11" port)) "" "" [] [] [] [])
    [] [] [] ∅ ∅ ∅.

(** [ctlr_default] with both virtual servers of the group [default] in
    the store. *)
Definition ctlr_serving : Controller :=
  mkController
    (mkResourceStore
       {[ "test" := {[ "gw_80" := vs_sample "gw_80" "http" 80;
                       "gw_443" := vs_sample "gw_443" "https" 443 ]} ]}
       ∅ ∅ ∅ {[ "default" := parsed_gw ]} {[ "default" := "default" ]} ∅)
    ∅ ∅ "cluster" false 0 false [] [].

(** A reencrypt route with a destination CA certificate that serves no
    insecure traffic. *)
Definition route_reencrypt : routeapi_Route :=
  mkRoute "secure" "default" 1 ∅ "example.com" "/" "svc" None
    (Some (mkTLSConfig "reencrypt" "" "" "" "destination-ca" "None")).

(** [sample_externals] where no server SSL profile can be created. *)
Definition no_server_profile_externals (store : list routeapi_Route) : Externals :=
  let E := sample_externals store in
  {| createRule := createRule E;
     getRewriteActions := getRewriteActions E;
     formatVirtualServerRuleName := formatVirtualServerRuleName E;
     createPolicy := createPolicy E;
     rules_Less := rules_Less E;
     GetRouteBackends := GetRouteBackends E;
     IsRouteABDeployment := IsRouteABDeployment E;
     essentialInformerFound := essentialInformerFound E;
     GetServicePort := GetServicePort E;
     checkCertificateHost := checkCertificateHost E;
     routeInformerStore := routeInformerStore E;
     updatePoolMembersForNodePort := updatePoolMembersForNodePort E;
     updatePoolMembersForCluster := updatePoolMembersForCluster E;
     getSecret := getSecret E;
     createSecretClientSSLProfile := createSecretClientSSLProfile E;
     createSecretServerSSLProfile := createSecretServerSSLProfile E;
     createClientSSLProfile := createClientSSLProfile E;
     createServerSSLProfile := λ _ _ _ _ _ _, None;
     updateDataGroup := updateDataGroup E;
     updateDataGroupOfDgName := updateDataGroupOfDgName E;
     getTLSIRule := getTLSIRule E;
     ParseIP := ParseIP E;
     httpRedirectIRule := httpRedirectIRule E;
     httpRedirectIRuleNoHost := httpRedirectIRuleNoHost E;
  |}.

(* ================================================================= *)
(** * Part II: properties *)
(* ================================================================= *)

(** ** Byte-wise string order *)

Lemma ltb_compare a b : String.ltb a b = true ↔ String.compare a b = Lt.
Proof. unfold String.ltb. destruct (String.compare a b); split; congruence. Qed.

Lemma ltb_irrefl a : String.ltb a a = false.
Proof.
  unfold String.ltb.
  assert (String.compare a a = Eq) as -> by (by apply String_as_OT.cmp_eq).
  done.
Qed.

Lemma ltb_trans a b c :
  String.ltb a b = true → String.ltb b c = true → String.ltb a c = true.
Proof.
  rewrite !ltb_compare. intros H1 H2.
  apply String_as_OT.cmp_lt. eapply String_as_OT.lt_trans.
  - apply String_as_OT.cmp_lt. exact H1.
  - apply String_as_OT.cmp_lt. exact H2.
Qed.

Lemma ltb_asym a b : String.ltb a b = true → String.ltb b a = false.
Proof.
  intros H. destruct (String.ltb b a) eqn:E; [|done].
  pose proof (ltb_trans _ _ _ H E) as C. rewrite ltb_irrefl in C. done.
Qed.

Lemma ltb_trichotomy a b :
  String.ltb a b = true ∨ a = b ∨ String.ltb b a = true.
Proof.
  unfold String.ltb.
  pose proof (String.compare_antisym b a) as Hs.
  destruct (String.compare a b) eqn:E.
  - right; left. by apply String_as_OT.cmp_eq.
  - by left.
  - right; right. destruct (String.compare b a); simpl in Hs; congruence.
Qed.

Lemma ltb_ge_trans a b c :
  String.ltb a b = true → String.ltb c b = false → String.ltb a c = true.
Proof.
  intros H1 H2. destruct (ltb_trichotomy b c) as [H|[->|H]]; try congruence.
  by eapply ltb_trans.
Qed.

Lemma ge_ltb_trans a b c :
  String.ltb b a = false → String.ltb b c = true → String.ltb a c = true.
Proof.
  intros H1 H2. destruct (ltb_trichotomy a b) as [H|[->|H]]; try congruence.
  by eapply ltb_trans.
Qed.

(** ** Binary search *)

Section BinarySearch.
Variable f : nat → bool.
Variable n : nat.
Hypothesis f_mono : ∀ a b, (a ≤ b)%nat → (b < n)%nat → f a = true → f b = true.

Lemma search_loop_spec fuel : ∀ i j,
  (i ≤ j)%nat → (j ≤ n)%nat → (j - i ≤ fuel)%nat →
  (∀ k, (k < i)%nat → f k = false) →
  (∀ k, (j ≤ k)%nat → (k < n)%nat → f k = true) →
  let r := search_loop fuel f i j in
  (r ≤ n)%nat ∧ (∀ k, (k < r)%nat → f k = false) ∧
  (∀ k, (r ≤ k)%nat → (k < n)%nat → f k = true).
Proof.
  induction fuel as [|fuel IH]; intros i j Hij Hjn Hfuel Hlo Hhi;
    cbn [search_loop].
  - assert (i = j) by lia. subst. repeat split; auto.
  - destruct (Nat.ltb_spec i j) as [Hlt|Hge].
    + pose proof (Nat.div_mod_eq (i + j) 2) as Hdm.
      pose proof (Nat.mod_upper_bound (i + j) 2 ltac:(lia)) as Hmod.
      set (h := ((i + j) / 2)%nat) in *.
      assert (i ≤ h < j)%nat as [Hih Hhj] by lia.
      destruct (f h) eqn:Hfh; cbn [negb].
      * apply IH; [lia|lia|lia|done|].
        intros k Hk Hkn. apply (f_mono h k); [lia|lia|done].
      * apply IH; [lia|lia|lia| |done].
        intros k Hk. destruct (f k) eqn:Hfk; [|done].
        rewrite <- Hfh. symmetry. apply (f_mono k h); [lia|lia|done].
    + assert (i = j) by lia. subst. repeat split; auto.
Qed.

Lemma sort_Search_spec :
  let r := sort_Search n f in
  (r ≤ n)%nat ∧ (∀ k, (k < r)%nat → f k = false) ∧
  (∀ k, (r ≤ k)%nat → (k < n)%nat → f k = true).
Proof.
  unfold sort_Search. apply search_loop_spec; lia.
Qed.
End BinarySearch.

(** ** Internal data groups keep their records sorted *)

Lemma sorted_lookup_lt recs a b ra rb :
  records_sorted recs → (a < b)%nat →
  recs !! a = Some ra → recs !! b = Some rb → rec_lt ra rb.
Proof.
  intros Hs Hab Ha Hb.
  rewrite <- (take_drop b recs) in Hs.
  apply (StronglySorted_app_1_elem_of _ _ _ _ _ Hs).
  - apply elem_of_take. eauto.
  - apply list_elem_of_lookup. exists 0%nat. rewrite lookup_drop.
    by rewrite Nat.add_0_r.
Qed.

Lemma nameKeyFunc_mono recs name :
  records_sorted recs →
  ∀ a b, (a ≤ b)%nat → (b < length recs)%nat →
         nameKeyFunc recs name a = true → nameKeyFunc recs name b = true.
Proof.
  intros Hs a b Hab Hb. unfold nameKeyFunc.
  destruct (recs !! a) as [ra|] eqn:Ha; [|done].
  destruct (lookup_lt_is_Some_2 recs b Hb) as [rb Hrb]. rewrite Hrb.
  rewrite !negb_true_iff. intros Hra.
  destruct (decide (a = b)) as [->|Hne]; [congruence|].
  assert (rec_lt ra rb) as Hlt
    by (eapply (sorted_lookup_lt recs a b); eauto; lia).
  destruct (String.ltb (rec_Name rb) name) eqn:E; [|done].
  pose proof (ltb_trans _ _ _ Hlt E). congruence.
Qed.

(** The index found splits the records into those below [name] and those
    at or above it. *)
Lemma search_split recs name :
  records_sorted recs →
  let i := sort_Search (length recs) (nameKeyFunc recs name) in
  (i ≤ length recs)%nat ∧
  Forall (λ r, String.ltb (rec_Name r) name = true) (take i recs) ∧
  Forall (λ r, String.ltb (rec_Name r) name = false) (drop i recs).
Proof.
  intros Hs i.
  destruct (sort_Search_spec _ _ (nameKeyFunc_mono recs name Hs))
    as (Hle & Hlo & Hhi). fold i in Hle, Hlo, Hhi.
  split; [done|]. split.
  - apply Forall_lookup. intros k r Hk.
    apply lookup_take_Some in Hk as [Hk Hki].
    specialize (Hlo k Hki). unfold nameKeyFunc in Hlo. rewrite Hk in Hlo.
    by apply negb_false_iff in Hlo.
  - apply Forall_lookup. intros k r Hk. rewrite lookup_drop in Hk.
    assert (i + k < length recs)%nat by (by eapply lookup_lt_Some).
    specialize (Hhi (i + k)%nat ltac:(lia) ltac:(lia)).
    unfold nameKeyFunc in Hhi. rewrite Hk in Hhi.
    by apply negb_true_iff in Hhi.
Qed.

Lemma sorted_drop_gt recs i r name :
  records_sorted recs → recs !! i = Some r →
  String.ltb (rec_Name r) name = false → rec_Name r ≠ name →
  Forall (λ r', String.ltb name (rec_Name r') = true) (drop i recs).
Proof.
  intros Hs Hi Hge Hne.
  assert (String.ltb name (rec_Name r) = true) as Hlt.
  { destruct (ltb_trichotomy name (rec_Name r)) as [H|[H|H]]; congruence. }
  apply Forall_lookup. intros k r' Hk. rewrite lookup_drop in Hk.
  destruct k as [|k].
  - rewrite Nat.add_0_r in Hk. congruence.
  - eapply ltb_trans; [exact Hlt|].
    eapply (sorted_lookup_lt recs i (i + S k)); eauto. lia.
Qed.

Lemma sorted_insert_at recs i name data :
  records_sorted recs →
  Forall (λ r, String.ltb (rec_Name r) name = true) (take i recs) →
  Forall (λ r, String.ltb name (rec_Name r) = true) (drop i recs) →
  records_sorted (take i recs ++ mkIDGRecord name data :: drop i recs).
Proof.
  intros Hs Hlo Hhi. rewrite <- (take_drop i recs) in Hs.
  apply StronglySorted_app in Hs as (Hx & Hs1 & Hs2).
  apply StronglySorted_app_2; [|done|].
  - intros x1 x2 H1 H2. apply elem_of_cons in H2 as [->|H2].
    + rewrite Forall_forall in Hlo. by apply Hlo.
    + by apply Hx.
  - apply StronglySorted_cons. split; [|done].
    eapply Forall_impl; [exact Hhi|]. intros r Hr. exact Hr.
Qed.

Lemma sorted_remove_at recs i :
  records_sorted recs → records_sorted (take i recs ++ drop (i + 1) recs).
Proof.
  intros Hs. rewrite <- (take_drop i recs) in Hs.
  apply StronglySorted_app in Hs as (Hx & Hs1 & Hs2).
  apply StronglySorted_app_2; [|done|].
  - intros x1 x2 H1 H2. apply Hx; [done|].
    replace (i + 1)%nat with (S i) in H2 by lia.
    rewrite <- drop_drop in H2 || idtac.
    apply list_elem_of_lookup in H2 as [k Hk]. rewrite lookup_drop in Hk.
    apply list_elem_of_lookup. exists (S k). rewrite lookup_drop.
    rewrite <- Hk. f_equal. lia.
  - replace (i + 1)%nat with (1 + i)%nat by lia.
    rewrite <- (drop_drop recs 1 i) || idtac.
    destruct (drop i recs) as [|x l] eqn:E.
    + assert (drop (1 + i) recs = []) as ->; [|constructor].
      apply drop_ge. assert (length (drop i recs) = 0%nat) as Hl by (by rewrite E).
      rewrite length_drop in Hl. lia.
    + assert (drop (1 + i) recs = l) as ->.
      { simpl. rewrite <- (drop_drop recs i 1) || idtac.
        change (S i) with (1 + i)%nat. rewrite Nat.add_comm.
        rewrite <- drop_drop. by rewrite E. }
      by apply StronglySorted_cons in Hs2 as [_ ?].
Qed.

Lemma sorted_names_NoDup recs :
  records_sorted recs → NoDup (rec_Name <$> recs).
Proof.
  induction 1 as [|r recs Hs IH Hall]; simpl; constructor; [|done].
  intros Hin. apply list_elem_of_fmap in Hin as (r' & Heq & Hr').
  rewrite Forall_forall in Hall. specialize (Hall r' Hr').
  unfold rec_lt in Hall. rewrite Heq, ltb_irrefl in Hall. done.
Qed.

Lemma sorted_name_unique recs r1 r2 :
  records_sorted recs → r1 ∈ recs → r2 ∈ recs →
  rec_Name r1 = rec_Name r2 → r1 = r2.
Proof.
  intros Hs H1 H2 Hn.
  apply list_elem_of_lookup in H1 as [a Ha]. apply list_elem_of_lookup in H2 as [b Hb].
  destruct (Nat.lt_trichotomy a b) as [H|[->|H]].
  - pose proof (sorted_lookup_lt _ _ _ _ _ Hs H Ha Hb) as Hlt.
    unfold rec_lt in Hlt. rewrite Hn, ltb_irrefl in Hlt. done.
  - congruence.
  - pose proof (sorted_lookup_lt _ _ _ _ _ Hs H Hb Ha) as Hlt.
    unfold rec_lt in Hlt. rewrite Hn, ltb_irrefl in Hlt. done.
Qed.

Lemma AddOrUpdateRecord_sorted idg name data :
  records_sorted (idg_Records idg) →
  records_sorted (idg_Records (AddOrUpdateRecord idg name data).1).
Proof.
  intros Hs. unfold AddOrUpdateRecord.
  destruct (search_split _ name Hs) as (Hle & Hlo & Hhi).
  set (recs := idg_Records idg) in *.
  set (i := sort_Search (length recs) (nameKeyFunc recs name)) in *.
  destruct (recs !! i) as [r|] eqn:Hi.
  - destruct (String.eqb_spec (rec_Name r) name) as [Heq|Hne].
    + destruct (negb (String.eqb (rec_Data r) data)); [|done]. simpl.
      rewrite insert_take_drop by (by eapply lookup_lt_Some).
      rewrite <- (take_drop_middle recs i r Hi) in Hs.
      apply StronglySorted_app in Hs as (Hx & Hs1 & Hs2).
      apply StronglySorted_cons in Hs2 as [Hall Hs2].
      apply StronglySorted_app_2; [|done|].
      * intros x1 x2 H1 H2. apply elem_of_cons in H2 as [->|H2].
        -- specialize (Hx x1 r H1 ltac:(left)). exact Hx.
        -- apply Hx; [done|]. by right.
      * apply StronglySorted_cons. split; [|done].
        eapply Forall_impl; [exact Hall|]. intros x Hx'. exact Hx'.
    + simpl. apply sorted_insert_at; [done|done|].
      eapply sorted_drop_gt; eauto.
      rewrite Forall_forall in Hhi. apply Hhi.
      apply list_elem_of_lookup. exists 0%nat. rewrite lookup_drop.
      by rewrite Nat.add_0_r.
  - simpl. apply sorted_insert_at; [done|done|].
    rewrite drop_ge; [constructor|]. by apply lookup_ge_None.
Qed.

Lemma AddOrUpdateRecord_false_iff idg name data :
  records_sorted (idg_Records idg) →
  (AddOrUpdateRecord idg name data).2 = false ↔
  mkIDGRecord name data ∈ idg_Records idg.
Proof.
  intros Hs. unfold AddOrUpdateRecord.
  destruct (search_split _ name Hs) as (Hle & Hlo & Hhi).
  set (recs := idg_Records idg) in *.
  set (i := sort_Search (length recs) (nameKeyFunc recs name)) in *.
  assert (∀ x, x ∈ take i recs → rec_Name x ≠ name) as Hbelow.
  { intros x Hx Heq. rewrite Forall_forall in Hlo. specialize (Hlo x Hx).
    rewrite Heq, ltb_irrefl in Hlo. done. }
  destruct (recs !! i) as [r|] eqn:Hi.
  - assert (r ∈ recs) as Hr by (by eapply list_elem_of_lookup_2).
    destruct (String.eqb_spec (rec_Name r) name) as [Heq|Hne].
    + destruct (String.eqb_spec (rec_Data r) data) as [Hd|Hd]; simpl.
      * split; [intros _|done]. destruct r; simpl in *. by subst.
      * split; [done|]. intros Hin. exfalso. apply Hd.
        assert (r = mkIDGRecord name data) as ->; [|done].
        eapply sorted_name_unique; eauto.
    + simpl. split; [done|]. intros Hin. exfalso.
      rewrite <- (take_drop i recs) in Hin. apply elem_of_app in Hin as [Hin|Hin].
      * by apply (Hbelow _ Hin).
      * assert (Forall (λ r', String.ltb name (rec_Name r') = true) (drop i recs)) as Hgt.
        { eapply sorted_drop_gt; eauto.
          rewrite Forall_forall in Hhi. apply Hhi.
          apply list_elem_of_lookup. exists 0%nat. rewrite lookup_drop.
          by rewrite Nat.add_0_r. }
        rewrite Forall_forall in Hgt. specialize (Hgt _ Hin). simpl in Hgt.
        rewrite ltb_irrefl in Hgt. done.
  - simpl. split; [done|]. intros Hin. exfalso.
    rewrite take_ge in Hbelow by (by apply lookup_ge_None).
    by apply (Hbelow _ Hin).
Qed.

Lemma AddOrUpdateRecord_false_unchanged idg name data :
  (AddOrUpdateRecord idg name data).2 = false →
  (AddOrUpdateRecord idg name data).1 = idg.
Proof.
  unfold AddOrUpdateRecord.
  destruct (idg_Records idg !! _) as [r|]; [|done].
  destruct (String.eqb (rec_Name r) name); [|done].
  destruct (negb (String.eqb (rec_Data r) data)); done.
Qed.

Lemma RemoveRecord_records idg name :
  idg_Records (RemoveRecord idg name).1 = idg_Records idg ∨
  ∃ i, (i < length (idg_Records idg))%nat ∧
       idg_Records (RemoveRecord idg name).1 =
         take i (idg_Records idg) ++ drop (i + 1) (idg_Records idg).
Proof.
  unfold RemoveRecord.
  set (recs := idg_Records idg).
  set (i := sort_Search (length recs) (nameKeyFunc recs name)).
  destruct (recs !! i) as [r|] eqn:Hi; [|by left].
  destruct (String.eqb (rec_Name r) name); [|by left].
  right. exists i. pose proof (lookup_lt_Some _ _ _ Hi) as Hlt.
  split; [done|]. simpl. rewrite app_assoc.
  apply take_app_length'. rewrite length_app, length_take, length_drop. lia.
Qed.

Lemma RemoveRecord_sorted idg name :
  records_sorted (idg_Records idg) →
  records_sorted (idg_Records (RemoveRecord idg name).1).
Proof.
  intros Hs. destruct (RemoveRecord_records idg name) as [->|(i & _ & ->)];
    [done|]. by apply sorted_remove_at.
Qed.

(** C10. The records of an internal data group stay sorted ascending by
    name, without two records of one name, through every
    [AddOrUpdateRecord] and [RemoveRecord]; [AddOrUpdateRecord] answers
    [false] exactly when the record with that name and that data is already
    there, and then leaves the data group as it was. *)
Theorem idg_records_invariant idg name data :
  records_sorted (idg_Records idg) →
  let added := AddOrUpdateRecord idg name data in
  let removed := RemoveRecord idg name in
  (records_sorted (idg_Records added.1) ∧ NoDup (rec_Name <$> idg_Records added.1)) ∧
  (records_sorted (idg_Records removed.1) ∧ NoDup (rec_Name <$> idg_Records removed.1)) ∧
  (added.2 = false ↔ mkIDGRecord name data ∈ idg_Records idg) ∧
  (added.2 = false → added.1 = idg).
Proof.
  intros Hs added removed.
  pose proof (AddOrUpdateRecord_sorted idg name data Hs) as Ha.
  pose proof (RemoveRecord_sorted idg name Hs) as Hr.
  repeat split; auto using sorted_names_NoDup.
  - by apply AddOrUpdateRecord_false_iff.
  - by apply AddOrUpdateRecord_false_iff.
  - apply AddOrUpdateRecord_false_unchanged.
Qed.

Lemma idg_sample_sorted : records_sorted (idg_Records idg_sample).
Proof. repeat constructor. Qed.

Lemma idg_records_invariant_witness :
  let added := AddOrUpdateRecord idg_sample "b.com" "z" in
  let removed := RemoveRecord idg_sample "b.com" in
  (records_sorted (idg_Records added.1) ∧ NoDup (rec_Name <$> idg_Records added.1)) ∧
  (records_sorted (idg_Records removed.1) ∧ NoDup (rec_Name <$> idg_Records removed.1)) ∧
  (added.2 = false ↔ mkIDGRecord "b.com" "z" ∈ idg_Records idg_sample) ∧
  (added.2 = false → added.1 = idg_sample).
Proof. apply (idg_records_invariant idg_sample "b.com" "z"). apply idg_sample_sorted. Defined.

(** ** The effective extended spec of a route group *)

(** C7. For a route group present in the extended-spec map the effective
    spec is the local one when the override flag is set and a local spec
    exists, and the global one in every other case; for a group that is
    not in the map nothing is returned. *)
Theorem getExtendedRouteSpec_effective rs routeGroup :
  (extdSpecMap rs !! routeGroup = None → getExtendedRouteSpec rs routeGroup = None) ∧
  (∀ e, extdSpecMap rs !! routeGroup = Some e →
     (override e = true ∧ is_Some (local e) ∧
      getExtendedRouteSpec rs routeGroup = local e) ∨
     (¬ (override e = true ∧ is_Some (local e)) ∧
      getExtendedRouteSpec rs routeGroup = global e)).
Proof.
  unfold getExtendedRouteSpec. split.
  - by intros ->.
  - intros e ->. destruct (override e); simpl.
    + case_bool_decide as Hl.
      * left. split; [done|]. split; [|done].
        destruct (local e); [by eexists|done].
      * right. split; [|done]. intros [_ [x Hx]]. congruence.
    + right. split; [|done]. by intros [? _].
Qed.

Lemma getExtendedRouteSpec_effective_witness :
  getExtendedRouteSpec store_override "default" = Some spec_gw2 ∧
  getExtendedRouteSpec store_override "other" = None.
Proof.
  destruct (getExtendedRouteSpec_effective store_override "default") as [_ H].
  destruct (getExtendedRouteSpec_effective store_override "other") as [H' _].
  split.
  - destruct (H parsed_override ltac:(reflexivity)) as [(_ & _ & ->)|[Hn _]].
    + reflexivity.
    + exfalso. apply Hn. split; [reflexivity|]. by eexists.
  - apply H'. reflexivity.
Defined.

(** ** The delta between two revisions of the extended-spec map *)











(** ** Insertion sort *)

Lemma sink_Permutation {A} (less : A → A → bool) x l : sink less x l ≡ₚ x :: l.
Proof.
  induction l as [|y l IH]; simpl; [done|].
  destruct (less x y); [|done]. rewrite IH. apply Permutation_swap.
Qed.

Lemma insertion_loop_Permutation {A} (less : A → A → bool) todo :
  ∀ acc, insertion_loop less acc todo ≡ₚ acc ++ todo.
Proof.
  induction todo as [|x todo IH]; intros acc; simpl.
  - rewrite app_nil_r. symmetry. apply Permutation_rev.
  - rewrite IH, sink_Permutation. simpl. apply Permutation_middle.
Qed.

Lemma sort_Sort_Permutation {A} (less : A → A → bool) l : sort_Sort less l ≡ₚ l.
Proof. apply (insertion_loop_Permutation less l []). Qed.

Lemma sort_Slice_Permutation {A} (less : A → A → bool) l : sort_Slice less l ≡ₚ l.
Proof. apply (insertion_loop_Permutation less l []). Qed.

(** ** Rule ordinals *)

Section RuleOrdinals.
Context (E : Externals).

Lemma sortrules_singleton uri rl o :
  sortrules {[ uri := rl ]} [] o = [set_Ordinal rl o].
Proof.
  unfold sortrules. rewrite map_to_list_singleton. simpl.
  by rewrite Z.add_0_r.
Qed.

Lemma sortrules_empty o : sortrules ∅ [] o = [].
Proof. unfold sortrules. by rewrite map_to_list_empty. Qed.

Lemma prepareRouteLTMRules_single route poolName asr rls :
  prepareRouteLTMRules E route poolName asr = Some rls →
  ∃ r, rls = [r] ∧ rule_Ordinal r = 0.
Proof.
  unfold prepareRouteLTMRules. intros H.
  destruct (createRule E _ _ _ _) as [rl|]; [|done]. simpl in H.
  match type of H with
  | context [mbind _ ?m] => destruct m as [rl'|] eqn:Hrl'; [|done]
  end.
  simpl in H. destruct (HasPrefix _ _).
  - rewrite sortrules_empty, sortrules_singleton in H.
    rewrite map_size_empty in H. simplify_eq/=. eauto.
  - rewrite sortrules_empty, sortrules_singleton in H.
    simplify_eq/=. eauto.
Qed.

Lemma mergeHost_Ordinal e n m :
  mergeHost e n = Some m → rule_Ordinal m = rule_Ordinal e.
Proof.
  unfold mergeHost. intros H.
  repeat (case_match; simplify_option_eq); done.
Qed.

Lemma mergeRules_loop_ordinals (P : Z → Prop) names :
  ∀ rls existing newRules existing' newRules',
  mergeRules_loop names existing rls newRules = Some (existing', newRules') →
  Forall (λ r, P (rule_Ordinal r)) existing →
  Forall (λ r, P (rule_Ordinal r)) rls →
  Forall (λ r, P (rule_Ordinal r)) newRules →
  Forall (λ r, P (rule_Ordinal r)) existing' ∧
  Forall (λ r, P (rule_Ordinal r)) newRules'.
Proof.
  induction rls as [|newRule rest IH]; intros existing newRules ex' new' H He Hr Hn;
    cbn [mergeRules_loop] in H.
  - by simplify_eq.
  - apply Forall_cons in Hr as [Hr1 Hr].
    destruct (names !! rule_Name newRule) as [i|].
    + destruct (existing !! i) as [er|] eqn:Hi; [|done]. simpl in H.
      destruct (mergeHost er newRule) as [m|] eqn:Hm; [|done]. simpl in H.
      eapply IH; eauto.
      apply Forall_insert; [done|].
      rewrite (mergeHost_Ordinal _ _ _ Hm).
      rewrite Forall_lookup in He. by apply (He i).
    + eapply IH; eauto. apply Forall_app. split; [done|]. by constructor.
Qed.

(** [AddRules] numbers nothing: the rules of the merged policy carry the
    ordinals the policy's rules and the added rules came with. *)
Lemma AddRules_ordinals (P : Z → Prop) pol rls pol' :
  AddRules E pol rls = Some pol' →
  Forall (λ r, P (rule_Ordinal r)) (pol_Rules pol) →
  Forall (λ r, P (rule_Ordinal r)) rls →
  Forall (λ r, P (rule_Ordinal r)) (pol_Rules pol').
Proof.
  unfold AddRules, mergeRules. intros H Hp Hr.
  destruct (mergeRules_loop _ _ _ _) as [[ex new]|] eqn:Hm; [|done].
  simpl in H. simplify_eq. simpl.
  destruct (mergeRules_loop_ordinals P _ _ _ _ _ _ Hm Hp Hr ltac:(constructor))
    as [He Hn].
  rewrite sort_Sort_Permutation. apply Forall_app. by split.
Qed.

(** C2, as the code has it. Each call of [prepareRouteLTMRules] yields
    exactly one rule, numbered 0, for an exact host and for a wildcard
    host alike; [Policy.AddRules] assigns no ordinals. So every rule of a
    policy merged from the routes of a group has ordinal 0. *)
Theorem route_rules_ordinals :
  (∀ route poolName asr rls,
     prepareRouteLTMRules E route poolName asr = Some rls →
     ∃ r, rls = [r] ∧ rule_Ordinal r = 0) ∧
  (∀ routes pol asr pol',
     Forall (λ r, rule_Ordinal r = 0) (pol_Rules pol) →
     addRouteRules E pol routes asr = Some pol' →
     Forall (λ r, rule_Ordinal r = 0) (pol_Rules pol')).
Proof.
  split; [apply prepareRouteLTMRules_single|].
  induction routes as [|[route poolName] rest IH]; intros pol asr pol' Hp H;
    cbn [addRouteRules] in H.
  - by simplify_eq.
  - destruct (prepareRouteLTMRules E route poolName asr) as [rls|] eqn:Hr; [|done].
    simpl in H. destruct (AddRules E pol rls) as [pol1|] eqn:Ha; [|done].
    simpl in H. eapply IH; [|exact H].
    eapply (AddRules_ordinals (λ o, o = 0)); eauto.
    destruct (prepareRouteLTMRules_single _ _ _ _ Hr) as (r & -> & Hr0).
    by constructor.
Qed.
End RuleOrdinals.

Lemma route_rules_ordinals_witness :
  ∃ pol',
    addRouteRules (sample_externals []) empty_policy
      [(route_exact, "pool1"); (route_wild, "pool2")] [] = Some pol' ∧
    length (pol_Rules pol') = 2%nat ∧
    Forall (λ r, rule_Ordinal r = 0) (pol_Rules pol').
Proof.
  eexists. split; [vm_compute; reflexivity|]. split; [reflexivity|].
  eapply (proj2 (route_rules_ordinals (sample_externals []))
            [(route_exact, "pool1"); (route_wild, "pool2")] empty_policy []).
  - constructor.
  - vm_compute. reflexivity.
Defined.

(** C2 as stated fails on a group of two routes, one with an exact and one
    with a wildcard host: both rules of the policy are numbered 0, which is
    no strictly increasing sequence, and the exact rule is not numbered
    below the wildcard rule. *)
Lemma route_rules_ordinals_counterexample :
  ∃ pol' exact wild,
    addRouteRules (sample_externals []) empty_policy
      [(route_exact, "pool1"); (route_wild, "pool2")] [] = Some pol' ∧
    pol_Rules pol' = [wild; exact] ∧
    HasPrefix (rule_FullURI exact) "*." = false ∧
    HasPrefix (rule_FullURI wild) "*." = true ∧
    rule_Ordinal <$> pol_Rules pol' = [0; 0] ∧
    ¬ StronglySorted Z.lt (rule_Ordinal <$> pol_Rules pol') ∧
    ¬ (rule_Ordinal exact < rule_Ordinal wild).
Proof.
  eexists _, _, _. split; [vm_compute; reflexivity|].
  split; [reflexivity|]. split; [reflexivity|]. split; [reflexivity|].
  split; [reflexivity|]. split.
  - simpl. intros H. apply StronglySorted_cons in H as [H _].
    apply Forall_cons in H as [H _]. lia.
  - simpl. lia.
Qed.

(** ** Publishing *)

(** Whatever the store holds, [getGTMConfigCopy] returns the empty map, and
    so a publish leaves the DNS cache empty. *)
Lemma updateCaches_dnsConfigCache rs : dnsConfigCache (updateCaches rs) = ∅.
Proof. reflexivity. Qed.

Lemma postResourceConfigRequest_dns_cache ctlr :
  isConfigUpdated (resources ctlr) = true →
  dnsConfigCache (resources (postResourceConfigRequest ctlr)) = ∅ ∧
  dnsConfig (resources (postResourceConfigRequest ctlr)) = dnsConfig (resources ctlr).
Proof. unfold postResourceConfigRequest. intros ->. done. Qed.

(** C5. The publish check leaves the controller alone when the queue is
    not empty or the configuration equals the cached snapshot. When it
    publishes from a store that holds a wide IP, the request carries an
    empty [gtmConfig], the DNS cache is left empty and so differs from the
    DNS configuration, and the next check, on unchanged configuration,
    publishes again. *)
Theorem publish_repeats_with_dns ctlr :
  (∀ n, n ≠ 0%nat → publishCheck n ctlr = ctlr) ∧
  (isConfigUpdated (resources ctlr) = false → publishCheck 0 ctlr = ctlr) ∧
  (isConfigUpdated (resources ctlr) = true →
   dnsConfig (resources ctlr) ≠ ∅ →
   let c1 := publishCheck 0 ctlr in
   (∃ req, postedConfigs c1 = postedConfigs ctlr ++ [req] ∧ req_gtmConfig req = ∅) ∧
   ltmConfig (resources c1) = ltmConfig (resources ctlr) ∧
   dnsConfig (resources c1) = dnsConfig (resources ctlr) ∧
   dnsConfigCache (resources c1) = ∅ ∧
   isConfigUpdated (resources c1) = true ∧
   ∃ req', postedConfigs (publishCheck 0 c1) = postedConfigs c1 ++ [req']).
Proof.
  split; [intros [|n] Hn; [done|reflexivity]|].
  split; [intros H; unfold publishCheck, postResourceConfigRequest; simpl; by rewrite H|].
  intros Hupd Hdns. cbv zeta.
  assert (isConfigUpdated (resources (publishCheck 0 ctlr)) = true) as Hupd'.
  { unfold publishCheck, postResourceConfigRequest. simpl. rewrite Hupd. simpl.
    unfold isConfigUpdated. simpl. rewrite (bool_decide_false _ Hdns).
    apply orb_true_r. }
  split.
  { unfold publishCheck, postResourceConfigRequest. simpl. rewrite Hupd. simpl.
    by eexists. }
  split; [unfold publishCheck, postResourceConfigRequest; simpl; by rewrite Hupd|].
  split; [unfold publishCheck, postResourceConfigRequest; simpl; by rewrite Hupd|].
  split; [unfold publishCheck, postResourceConfigRequest; simpl; by rewrite Hupd|].
  split; [exact Hupd'|].
  generalize dependent (publishCheck 0 ctlr). intros c1 Hc1.
  unfold publishCheck, postResourceConfigRequest. simpl. rewrite Hc1. simpl.
  by eexists.
Qed.

Lemma publish_repeats_with_dns_witness :
  let c1 := publishCheck 0 ctlr_dns in
  let c2 := publishCheck 0 c1 in
  dnsConfig (resources c1) = {[ "a.example.com" := wip_sample ]} ∧
  dnsConfigCache (resources c1) = ∅ ∧
  length (postedConfigs c1) = 1%nat ∧
  length (postedConfigs c2) = 2%nat.
Proof.
  destruct (proj2 (proj2 (publish_repeats_with_dns ctlr_dns))) as (_ & _ & Hd & Hc & _ & Hq).
  - vm_compute. reflexivity.
  - intros H. apply (f_equal (λ m, m !! "a.example.com")) in H.
    vm_compute in H. discriminate H.
  - cbv zeta in *. split; [exact Hd|]. split; [exact Hc|]. split; [reflexivity|].
    destruct Hq as [req' ->]. rewrite length_app. reflexivity.
Defined.

(** ** The order of the routes *)

Section InsertionSorted.
Context {A : Type} (less : A → A → bool).

Let later (a b : A) : Prop := less a b = false.

Lemma sink_head x l :
  ∃ l', sink less x l = x :: l' ∨
        (∃ y rest, l = y :: rest ∧ less x y = true ∧ sink less x l = y :: l').
Proof.
  destruct l as [|y rest]; simpl; [by exists []; left|].
  destruct (less x y) eqn:E.
  - exists (sink less x rest). right. by exists y, rest.
  - exists (y :: rest). by left.
Qed.

(** With an asymmetric comparator every element ends up not below its
    predecessor. *)
Lemma sink_Sorted x l :
  (∀ a b, less a b = true → less b a = false) →
  Sorted later l → Sorted later (sink less x l).
Proof.
  intros Hasym. induction l as [|y rest IH]; intros Hs; simpl.
  - repeat constructor.
  - destruct (less x y) eqn:E.
    + apply Sorted_inv in Hs as [Hs Hhd]. constructor; [by apply IH|].
      destruct rest as [|z rest']; simpl.
      * constructor. by apply Hasym.
      * destruct (less x z); constructor.
        -- by apply HdRel_inv in Hhd.
        -- by apply Hasym.
    + constructor; [done|]. by constructor.
Qed.

Lemma insertion_loop_Sorted todo :
  (∀ a b, less a b = true → less b a = false) →
  ∀ acc, Sorted later acc →
  Sorted (flip later) (insertion_loop less acc todo).
Proof.
  intros Hasym. induction todo as [|x todo IH]; intros acc Hs; simpl.
  - rewrite rev_alt. by apply Sorted_reverse.
  - apply IH. by apply sink_Sorted.
Qed.

(** With a comparator that is a strict weak order on the elements at
    hand, the result is sorted throughout. *)
Context (P : A → Prop).
Hypothesis less_asym : ∀ a b, P a → P b → less a b = true → less b a = false.
Hypothesis later_trans :
  ∀ a b c, P a → P b → P c → later a b → later b c → later a c.

Lemma sink_StronglySorted x l :
  P x → Forall P l →
  StronglySorted later l → StronglySorted later (sink less x l).
Proof.
  intros Hx. induction l as [|y rest IH]; intros HP Hs; simpl.
  - repeat constructor.
  - apply Forall_cons in HP as [Hy HP].
    apply StronglySorted_cons in Hs as [Hall Hs].
    destruct (less x y) eqn:E.
    + apply StronglySorted_cons. split; [|by apply IH].
      rewrite sink_Permutation. constructor; [|done].
      by apply less_asym.
    + apply StronglySorted_cons. split; [|by apply StronglySorted_cons].
      constructor; [done|].
      rewrite Forall_forall in Hall, HP. apply Forall_forall. intros z Hz.
      apply (later_trans x y z); auto.
Qed.

Lemma StronglySorted_rev (R : relation A) l :
  StronglySorted R l → StronglySorted (flip R) (rev l).
Proof.
  induction 1 as [|x l Hs IH Hall]; simpl; [constructor|].
  apply StronglySorted_app_2; [|done|repeat constructor].
  intros x1 x2 H1 H2. apply list_elem_of_singleton in H2 as ->.
  rewrite Forall_forall in Hall. apply Hall.
  apply list_elem_of_In. apply in_rev. by apply list_elem_of_In.
Qed.

Lemma insertion_loop_StronglySorted todo :
  ∀ acc, Forall P acc → Forall P todo → StronglySorted later acc →
  StronglySorted (flip later) (insertion_loop less acc todo).
Proof.
  induction todo as [|x todo IH]; intros acc Ha Ht Hs; simpl.
  - by apply StronglySorted_rev.
  - apply Forall_cons in Ht as [Hx Ht]. apply IH; [|done|].
    + rewrite sink_Permutation. by constructor.
    + by apply sink_StronglySorted.
Qed.
End InsertionSorted.

Lemma ltb_empty_l p : p ≠ "" → String.ltb "" p = true.
Proof. by destruct p. Qed.

Lemma ltb_empty_r p : String.ltb p "" = false.
Proof. by destruct p. Qed.

Lemma HasPrefix_slash p : HasPrefix p "/" = true → ∃ p', p = String "/"%char p'.
Proof.
  unfold HasPrefix. destruct p as [|c p']; cbn [String.prefix].
  - intros H. discriminate H.
  - destruct (ascii_dec "/" c) as [<-|]; [eauto|]. intros H. discriminate H.
Qed.

Lemma ltb_slash_prefixed p' : String.ltb (String "/"%char p') "/" = false.
Proof. unfold String.ltb. simpl. by destruct p'. Qed.

Lemma ltb_slash_lt p' : p' ≠ "" → String.ltb "/" (String "/"%char p') = true.
Proof. unfold String.ltb. simpl. by destruct p'. Qed.

Lemma length_zero_iff (p : string) : (String.length p =? 0)%nat = true ↔ p = "".
Proof. destruct p; simpl; split; congruence. Qed.

Lemma oneEmptyOneRoot_comm pa pb : oneEmptyOneRoot pa pb = oneEmptyOneRoot pb pa.
Proof.
  unfold oneEmptyOneRoot.
  rewrite (orb_comm (String.length pa =? 0)%nat), (orb_comm (bool_decide (pa = "/"))).
  done.
Qed.

(** [routeLess] case by case. *)
Lemma routeLess_eq a b :
  routeLess a b =
  if bool_decide (rt_Host a = rt_Host b) then
    if oneEmptyOneRoot (rt_Path a) (rt_Path b)
    then bool_decide (rt_CreationTimestamp a < rt_CreationTimestamp b)
    else (bool_decide (rt_Path a = rt_Path b)
          && bool_decide (rt_CreationTimestamp a < rt_CreationTimestamp b))
         || String.ltb (rt_Path a) (rt_Path b)
  else String.ltb (rt_Host a) (rt_Host b).
Proof.
  unfold routeLess. fold (oneEmptyOneRoot (rt_Path a) (rt_Path b)).
  case_bool_decide as Hh; simpl.
  - destruct (oneEmptyOneRoot _ _); [done|]. rewrite Hh, ltb_irrefl. done.
  - by rewrite !orb_false_r.
Qed.

Lemma routeLess_asym a b : routeLess a b = true → routeLess b a = false.
Proof.
  rewrite !routeLess_eq, (oneEmptyOneRoot_comm (rt_Path b)).
  destruct (decide (rt_Host a = rt_Host b)) as [Hh|Hh].
  - rewrite (bool_decide_true (rt_Host a = rt_Host b)) by done.
    rewrite (bool_decide_true (rt_Host b = rt_Host a)) by done.
    destruct (oneEmptyOneRoot _ _).
    + rewrite bool_decide_eq_true, bool_decide_eq_false. lia.
    + destruct (decide (rt_Path a = rt_Path b)) as [Hp|Hp].
      * rewrite Hp, ltb_irrefl, !orb_false_r.
        rewrite (bool_decide_true (rt_Path b = rt_Path b)) by done. simpl.
        rewrite bool_decide_eq_true, bool_decide_eq_false. lia.
      * rewrite (bool_decide_false (rt_Path a = rt_Path b)) by done.
        rewrite (bool_decide_false (rt_Path b = rt_Path a)) by congruence.
        simpl. apply ltb_asym.
  - rewrite (bool_decide_false (rt_Host a = rt_Host b)) by done.
    rewrite (bool_decide_false (rt_Host b = rt_Host a)) by congruence.
    apply ltb_asym.
Qed.

(** [routeLess b a = false] says in the words of [routeOrdered] that [a]
    may stand before [b]. *)
Lemma routeLess_false_iff a b : routeLess b a = false ↔ routeOrdered a b.
Proof.
  rewrite routeLess_eq, (oneEmptyOneRoot_comm (rt_Path b)). unfold routeOrdered.
  destruct (decide (rt_Host a = rt_Host b)) as [Hh|Hh].
  - rewrite (bool_decide_true (rt_Host b = rt_Host a)) by done.
    rewrite Hh, ltb_irrefl.
    destruct (oneEmptyOneRoot _ _).
    + rewrite bool_decide_eq_false. split; [intros; split; [done|intros; lia]|].
      intros [_ H]. specialize (H eq_refl). lia.
    + rewrite orb_false_iff, andb_false_iff, !bool_decide_eq_false. split.
      * intros [H1 H2]. split; [done|]. intros _. split; [done|].
        intros Hp. destruct H1 as [H1|H1]; [congruence|lia].
      * intros [_ H]. destruct (H eq_refl) as [H1 H2]. split; [|done].
        destruct (decide (rt_Path b = rt_Path a)) as [Hp|Hp]; [|by left].
        right. symmetry in Hp. specialize (H2 Hp). lia.
  - rewrite (bool_decide_false (rt_Host b = rt_Host a)) by congruence.
    split; [|by intros [? _]]. intros H. split; [done|]. intros; congruence.
Qed.

Lemma normPath_cases p :
  (p = "" ∧ normPath p = "/") ∨ (p = "/" ∧ normPath p = "/") ∨
  (p ≠ "" ∧ p ≠ "/" ∧ normPath p = p).
Proof.
  unfold normPath. destruct (decide (p = "/")) as [->|Hr]; [by right; left|].
  rewrite (bool_decide_false _ Hr). simpl.
  destruct (String.length p =? 0)%nat eqn:Hl.
  - left. by apply length_zero_iff in Hl.
  - right; right. repeat split; auto. intros ->. done.
Qed.

Lemma oneEmptyOneRoot_true pa pb :
  oneEmptyOneRoot pa pb = true ↔ (pa = "" ∧ pb = "/") ∨ (pa = "/" ∧ pb = "").
Proof.
  unfold oneEmptyOneRoot.
  rewrite andb_true_iff, !orb_true_iff, !length_zero_iff, !bool_decide_eq_true.
  split.
  - intros [[->| ->] [H|H]]; try done; auto.
  - intros [[-> ->]|[-> ->]]; auto.
Qed.

(** On paths that are empty or begin with a slash, [routeLess] is the
    order by host, normalised path and creation time. *)
Lemma routeLess_routeKeyLt a b :
  (rt_Path a = "" ∨ HasPrefix (rt_Path a) "/" = true) →
  (rt_Path b = "" ∨ HasPrefix (rt_Path b) "/" = true) →
  routeLess a b = routeKeyLt a b.
Proof.
  intros Ha Hb. rewrite routeLess_eq. unfold routeKeyLt.
  case_bool_decide as Hh; [|done].
  destruct (oneEmptyOneRoot (rt_Path a) (rt_Path b)) eqn:Hsp.
  - apply oneEmptyOneRoot_true in Hsp as [[-> ->]|[-> ->]]; done.
  - assert (¬ ((rt_Path a = "" ∧ rt_Path b = "/") ∨ (rt_Path a = "/" ∧ rt_Path b = "")))
      as Hnsp by (rewrite <- oneEmptyOneRoot_true; congruence).
    destruct (decide (rt_Path a = rt_Path b)) as [Hp|Hp].
    + rewrite Hp, ltb_irrefl, orb_false_r.
      rewrite (bool_decide_true (rt_Path b = rt_Path b)) by done.
      rewrite (bool_decide_true (normPath (rt_Path b) = normPath (rt_Path b))) by done.
      done.
    + rewrite (bool_decide_false _ Hp). simpl.
      destruct (normPath_cases (rt_Path a)) as [[Ea Na]|[[Ea Na]|(Ea1 & Ea2 & Na)]];
      destruct (normPath_cases (rt_Path b)) as [[Eb Nb]|[[Eb Nb]|(Eb1 & Eb2 & Nb)]];
        rewrite Na, Nb; try (exfalso; apply Hnsp; by auto); try congruence.
      * (* a empty, b other *)
        rewrite (bool_decide_false ("/" = rt_Path b)) by congruence.
        destruct Hb as [Hb|Hb]; [done|]. apply HasPrefix_slash in Hb as [p' Hb].
        rewrite Ea, Hb, ltb_slash_lt; [by rewrite ltb_empty_l|]. intros ->. congruence.
      * (* a root, b other *)
        rewrite (bool_decide_false ("/" = rt_Path b)) by congruence. by rewrite Ea.
      * (* a other, b empty *)
        rewrite (bool_decide_false (rt_Path a = "/")) by congruence.
        destruct Ha as [Ha|Ha]; [done|]. apply HasPrefix_slash in Ha as [p' Ha].
        rewrite Eb, Ha, ltb_slash_prefixed. apply ltb_empty_r.
      * (* a other, b root *)
        rewrite (bool_decide_false (rt_Path a = "/")) by congruence. by rewrite Eb.
      * rewrite (bool_decide_false _ Hp). done.
Qed.

(** The order by host, normalised path and creation time is a strict weak
    order: its complement is transitive. *)
Lemma routeKeyLt_later_trans a b c :
  routeKeyLt a b = false → routeKeyLt b c = false → routeKeyLt a c = false.
Proof.
  unfold routeKeyLt.
  set (ha := rt_Host a). set (hb := rt_Host b). set (hc := rt_Host c).
  set (pa := normPath (rt_Path a)). set (pb := normPath (rt_Path b)).
  set (pc := normPath (rt_Path c)).
  intros H1 H2.
  destruct (decide (ha = hb)) as [Hab|Hab], (decide (hb = hc)) as [Hbc|Hbc].
  - rewrite (bool_decide_true _ Hab) in H1. rewrite (bool_decide_true _ Hbc) in H2.
    rewrite (bool_decide_true (ha = hc)) by congruence.
    destruct (decide (pa = pb)) as [Pab|Pab], (decide (pb = pc)) as [Pbc|Pbc].
    + rewrite (bool_decide_true _ Pab) in H1. rewrite (bool_decide_true _ Pbc) in H2.
      rewrite (bool_decide_true (pa = pc)) by congruence.
      apply bool_decide_eq_false in H1, H2. apply bool_decide_eq_false. lia.
    + rewrite (bool_decide_false _ Pbc) in H2.
      rewrite (bool_decide_false (pa = pc)) by congruence. by rewrite Pab.
    + rewrite (bool_decide_false _ Pab) in H1.
      rewrite (bool_decide_false (pa = pc)) by congruence. by rewrite <- Pbc.
    + rewrite (bool_decide_false _ Pab) in H1. rewrite (bool_decide_false _ Pbc) in H2.
      assert (String.ltb pc pb = true) as Hcb
        by (destruct (ltb_trichotomy pb pc) as [?|[?|?]]; congruence).
      assert (String.ltb pb pa = true) as Hba
        by (destruct (ltb_trichotomy pa pb) as [?|[?|?]]; congruence).
      pose proof (ltb_trans _ _ _ Hcb Hba) as Hca.
      rewrite (bool_decide_false (pa = pc)).
      * by apply ltb_asym.
      * intros E. rewrite E, ltb_irrefl in Hca. done.
  - rewrite (bool_decide_true _ Hab) in H1. rewrite (bool_decide_false _ Hbc) in H2.
    rewrite (bool_decide_false (ha = hc)) by congruence. by rewrite Hab.
  - rewrite (bool_decide_false _ Hab) in H1. rewrite (bool_decide_true _ Hbc) in H2.
    rewrite (bool_decide_false (ha = hc)) by congruence. by rewrite <- Hbc.
  - rewrite (bool_decide_false _ Hab) in H1. rewrite (bool_decide_false _ Hbc) in H2.
    assert (String.ltb hc hb = true) as Hcb
      by (destruct (ltb_trichotomy hb hc) as [?|[?|?]]; congruence).
    assert (String.ltb hb ha = true) as Hba
      by (destruct (ltb_trichotomy ha hb) as [?|[?|?]]; congruence).
    pose proof (ltb_trans _ _ _ Hcb Hba) as Hca.
    rewrite (bool_decide_false (ha = hc)).
    + by apply ltb_asym.
    + intros E. rewrite E, ltb_irrefl in Hca. done.
Qed.

Lemma Sorted_weaken {A} (R1 R2 : relation A) l :
  (∀ a b, R1 a b → R2 a b) → Sorted R1 l → Sorted R2 l.
Proof.
  intros HR. induction 1 as [|x l Hs IH Hhd]; constructor; [done|].
  destruct Hhd; constructor; auto.
Qed.

Lemma StronglySorted_weaken {A} (R1 R2 : relation A) l :
  (∀ a b, R1 a b → R2 a b) → StronglySorted R1 l → StronglySorted R2 l.
Proof.
  intros HR. induction 1 as [|x l Hs IH Hall]; constructor; [done|].
  eapply Forall_impl; eauto.
Qed.

Lemma sort_Slice_routes_Sorted l : Sorted routeOrdered (sort_Slice routeLess l).
Proof.
  eapply Sorted_weaken; [|apply insertion_loop_Sorted].
  - intros a b H. apply routeLess_false_iff. exact H.
  - apply routeLess_asym.
  - constructor.
Qed.

Lemma sort_Slice_routes_StronglySorted l :
  Forall path_wf l → StronglySorted routeOrdered (sort_Slice routeLess l).
Proof.
  intros Hwf.
  eapply StronglySorted_weaken;
    [|apply (insertion_loop_StronglySorted routeLess path_wf)].
  - intros a b H. apply routeLess_false_iff. exact H.
  - intros a b _ _. apply routeLess_asym.
  - intros a b c Ha Hb Hc. unfold path_wf in *.
    rewrite !routeLess_routeKeyLt by done. apply routeKeyLt_later_trans.
  - constructor.
  - done.
  - constructor.
Qed.

Section OrderedRoutes.
Context (E : Externals).


(** C8, as the code has it. Without an informer for the namespace the
    result is nil. With one, [getOrderedRoutes] returns the routes of the
    informer's store (all of them for the empty namespace, those of the
    namespace otherwise), rearranged so that every route stands in the
    order [routeOrdered] to its successor: host ascending; for equal
    hosts, creation time ascending when one path is empty and the other
    is the root, and otherwise path ascending with creation time
    ascending on equal paths. When every path is empty or begins with a
    slash, any two routes of the result stand in that order. *)
Theorem getOrderedRoutes_order namespace :
  (routeInformerStore E namespace = None → getOrderedRoutes E namespace = []) ∧
  (∀ store, routeInformerStore E namespace = Some store →
     let listed :=
       if bool_decide (namespace = "") then store
       else filter (λ rt, rt_Namespace rt = namespace) store in
     getOrderedRoutes E namespace ≡ₚ listed ∧
     Sorted routeOrdered (getOrderedRoutes E namespace) ∧
     (Forall path_wf listed →
      StronglySorted routeOrdered (getOrderedRoutes E namespace))).
Proof.
  unfold getOrderedRoutes. split; [by intros ->|].
  intros store ->. cbv zeta. split; [apply sort_Slice_Permutation|].
  split; [apply sort_Slice_routes_Sorted|apply sort_Slice_routes_StronglySorted].
Qed.
End OrderedRoutes.

Lemma getOrderedRoutes_order_witness :
  getOrderedRoutes (sample_externals [route_app; route_root]) "default"
    ≡ₚ [route_app; route_root] ∧
  StronglySorted routeOrdered
    (getOrderedRoutes (sample_externals [route_app; route_root]) "default").
Proof.
  destruct (getOrderedRoutes_order (sample_externals [route_app; route_root]) "default")
    as [_ H].
  destruct (H [route_app; route_root] eq_refl) as (Hp & _ & Hs).
  split; [exact Hp|]. apply Hs.
  repeat constructor; right; reflexivity.
Defined.

(** C8 as stated fails for two routes of one host with the paths [/app]
    and [/]: one path is the root, so the claim orders them by creation
    time and puts [/app] (created at 1) first; the code compares the paths
    and puts [/] (created at 2) first. *)
Lemma getOrderedRoutes_root_counterexample :
  rt_Host route_app = rt_Host route_root ∧
  rt_Path route_root = "/" ∧
  rt_CreationTimestamp route_app < rt_CreationTimestamp route_root ∧
  getOrderedRoutes (sample_externals [route_app; route_root]) "default"
    = [route_root; route_app].
Proof. repeat split; vm_compute; reflexivity. Qed.

(** ** Host-path claims *)












Section Claims.
Context (E : Externals) (spec : ExtendedRouteGroupSpec).

Lemma checkValidRoute_cases ctlr r c' b :
  checkValidRoute E ctlr r (Some spec) = Some (c', b) →
  (∃ t0, processedHostPathMap ctlr !! hostPathKey r = Some t0 ∧
         t0 < rt_CreationTimestamp r ∧ b = false ∧
         c' = add_admitStatus ctlr (hostAlreadyClaimed r)) ∨
  ((∀ t0, processedHostPathMap ctlr !! hostPathKey r = Some t0 →
          rt_CreationTimestamp r ≤ t0) ∧
   ((passes E spec r ∧ b = true ∧ c' = ctlr) ∨
    (∃ reason, validateRoute E r (Some spec) = Some (Some reason) ∧ b = false ∧
       c' = add_admitStatus ctlr
              (mkAdmitStatus (rt_Namespace r +:+ "/" +:+ rt_Name r) reason false)))).
Proof.
  unfold checkValidRoute, passes.
  destruct (processedHostPathMap ctlr !! hostPathKey r) as [t0|] eqn:Hm.
  - case_bool_decide as Hlt.
    + intros [= <- <-]. left. exists t0. done.
    + intros H. right. split; [intros ? [= <-]; lia|].
      destruct (validateRoute E r (Some spec)) as [[reason|]|]; simplify_eq/=.
      * right. eauto.
      * left. done.
  - intros H. right. split; [done|].
    destruct (validateRoute E r (Some spec)) as [[reason|]|]; simplify_eq/=.
    + right. eauto.
    + left. done.
Qed.


Lemma resolveRoutes_cons ctlr r l acc :
  resolveRoutes E ctlr (r :: l) spec acc =
  match checkValidRoute E ctlr r (Some spec) with
  | Some (c1, true) =>
      resolveRoutes E
        (set_processedHostPathMap c1
           (updateHostPathMap (processedHostPathMap c1) (rt_CreationTimestamp r)
              (hostPathKey r)))
        l spec (acc ++ [r])
  | Some (c1, false) => resolveRoutes E c1 l spec acc
  | None => None
  end.
Proof.
  cbn [resolveRoutes]. destruct (checkValidRoute E ctlr r (Some spec)) as [[c1 [|]]|]; done.
Qed.



End Claims.

Section ClaimPhases.
Context (E : Externals) (spec : ExtendedRouteGroupSpec) (K : string).

Notation ts := rt_CreationTimestamp.


End ClaimPhases.

Section HostPathClaims.
Context (E : Externals).

End HostPathClaims.



(** ** Unused health monitors *)

(** The loop of [removeUnusedHealthMonitors] keeps the monitors in use,
    in their order, and never reads past the slice. *)
Lemma removeUnused_loop_filter fuel : ∀ monitors i,
  (i ≤ length monitors)%nat → (length monitors - i ≤ fuel)%nat →
  removeUnused_loop fuel monitors i (length monitors) =
  Some (take i monitors ++ filter (λ m, mon_InUse m = true) (drop i monitors)).
Proof.
  induction fuel as [|fuel IH]; intros monitors i Hi Hfuel; cbn [removeUnused_loop].
  - rewrite drop_ge, app_nil_r, take_ge by lia. done.
  - destruct (Nat.ltb_spec i (length monitors)) as [Hlt|Hge].
    + destruct (lookup_lt_is_Some_2 monitors i Hlt) as [m Hm]. rewrite Hm. simpl.
      assert (drop i monitors = m :: drop (i + 1) monitors) as Hdrop.
      { rewrite Nat.add_1_r. by apply drop_S. }
      rewrite Hdrop, filter_cons.
      destruct (mon_InUse m) eqn:Hin; simpl.
      * rewrite IH; [|lia|lia].
        rewrite Nat.add_1_r, (take_S_r monitors i m) by done.
        by rewrite <- app_assoc.
      * set (monitors' := if (i =? length monitors - 1)%nat then take i monitors
                          else take i monitors ++ drop (i + 1) monitors).
        assert (monitors' = take i monitors ++ drop (i + 1) monitors) as Heq.
        { unfold monitors'. destruct (Nat.eqb_spec i (length monitors - 1)) as [He|]; [|done].
          rewrite (drop_ge monitors (i + 1)) by lia. by rewrite app_nil_r. }
        assert (length monitors' = (length monitors - 1)%nat) as Hlen.
        { rewrite Heq, length_app, length_take, length_drop. lia. }
        rewrite <- Hlen. rewrite IH; [|lia|lia].
        rewrite Heq. rewrite take_app_le, drop_app_ge by (rewrite length_take; lia).
        rewrite length_take, take_take.
        replace (i `min` i)%nat with i by lia.
        replace (i - i `min` length monitors)%nat with 0%nat by lia.
        done.
    + assert (i = length monitors) as -> by lia.
      rewrite drop_ge, app_nil_r, take_ge by lia. done.
Qed.

Lemma removeUnusedHealthMonitors_filter rsCfg :
  removeUnusedHealthMonitors rsCfg =
  Some (set_Monitors rsCfg (filter (λ m, mon_InUse m = true) (Monitors rsCfg))).
Proof.
  unfold removeUnusedHealthMonitors.
  rewrite removeUnused_loop_filter by lia. done.
Qed.

(** ** The build keeps monitors bound *)

Lemma same_monitoring_refl rc : same_monitoring rc rc.
Proof. by repeat split. Qed.

Lemma same_monitoring_trans rc1 rc2 rc3 :
  same_monitoring rc1 rc2 → same_monitoring rc2 rc3 → same_monitoring rc1 rc3.
Proof. intros (? & ? & ?) (? & ? & ?). repeat split; congruence. Qed.

Lemma same_monitoring_bound routes rc rc' :
  same_monitoring rc rc' → monitors_bound routes rc → monitors_bound routes rc'.
Proof.
  intros (Hm & Hp & _) Hb m Hin Huse. rewrite Hm in Hin.
  destruct (Hb m Hin Huse) as (route & pool & Hr & Hpre & Hpool & Hname).
  assert (pool_MonitorNames pool ∈ pool_MonitorNames <$> Pools rc') as Hn.
  { rewrite Hp. apply list_elem_of_fmap. eauto. }
  apply list_elem_of_fmap in Hn as (pool' & Heq & Hpool').
  exists route, pool'. rewrite <- Heq. done.
Qed.

Lemma build_step_refl routes rc : build_step routes rc rc.
Proof. by split. Qed.

Lemma build_step_trans routes rc1 rc2 rc3 :
  build_step routes rc1 rc2 → build_step routes rc2 rc3 → build_step routes rc1 rc3.
Proof. intros [? ?] [? ?]. split; [auto|congruence]. Qed.

Lemma same_monitoring_step routes rc rc' :
  same_monitoring rc rc' → build_step routes rc rc'.
Proof.
  intros H. split; [by apply same_monitoring_bound|]. by destruct H as (_ & _ & ?).
Qed.

Lemma same_monitoring_addIRule rc n p code : same_monitoring rc (addIRule rc n p code).
Proof. unfold addIRule. destruct (IRulesMap rc !! _); by repeat split. Qed.

Lemma same_monitoring_addInternalDataGroup rc n p :
  same_monitoring rc (addInternalDataGroup rc n p).
Proof. unfold addInternalDataGroup. destruct (IntDgMap rc !! _); by repeat split. Qed.

Lemma same_monitoring_AddIRule rc name :
  same_monitoring rc (set_Virtual rc (Virtual_AddIRule (rc_Virtual rc) name)).
Proof. unfold Virtual_AddIRule. case_bool_decide; by repeat split. Qed.

Lemma same_monitoring_AddOrUpdateProfile rc prof :
  same_monitoring rc (set_Virtual rc (AddOrUpdateProfile (rc_Virtual rc) prof)).
Proof.
  unfold AddOrUpdateProfile.
  destruct (v_Profiles (rc_Virtual rc) !! _); [|by repeat split].
  destruct (_ && _); [|by repeat split]. case_bool_decide; by repeat split.
Qed.

Lemma same_monitoring_SetPolicy rc policy : same_monitoring rc (SetPolicy rc policy).
Proof.
  unfold SetPolicy. case_bool_decide; simpl;
    destruct (replacePolicy (Policies rc) policy); by repeat split.
Qed.

Section BuildSteps.
Context (E : Externals) (routes : list routeapi_Route).

Lemma same_monitoring_AddRuleToPolicy rc name part rules rc' :
  AddRuleToPolicy E rc name part rules = Some rc' → same_monitoring rc rc'.
Proof.
  unfold AddRuleToPolicy. destruct (FindPolicy rc PolicyControlForward).
  - destruct (AddRules E p rules); intros [= <-]. apply same_monitoring_SetPolicy.
  - destruct (createPolicy E rules name part); intros [= <-];
      [apply same_monitoring_SetPolicy|apply same_monitoring_refl].
Qed.

Lemma same_monitoring_handleDataGroupIRules rc host term :
  same_monitoring rc (handleDataGroupIRules E rc host term).
Proof.
  unfold handleDataGroupIRules.
  destruct (bool_decide (term ≠ "")); [|apply same_monitoring_refl].
  match goal with
  | |- same_monitoring _ (if _ then set_Virtual ?r _ else ?r) =>
      assert (same_monitoring rc r) as Hr; [|set (rc1 := r) in *]
  end.
  { destruct (bool_decide (term = TLSEdge)); [|destruct (bool_decide (term = TLSReencrypt))];
      try apply same_monitoring_refl;
      (eapply same_monitoring_trans; [eapply same_monitoring_trans|]);
      [apply same_monitoring_addIRule|apply same_monitoring_addInternalDataGroup
      |apply same_monitoring_addInternalDataGroup
      |apply same_monitoring_addIRule|apply same_monitoring_addInternalDataGroup
      |apply same_monitoring_addInternalDataGroup]. }
  destruct (bool_decide (host ≠ "")); [|exact Hr].
  eapply same_monitoring_trans; [exact Hr|apply same_monitoring_AddIRule].
Qed.

Lemma same_monitoring_foldl {A} (f : ResourceConfig → A → ResourceConfig) l :
  (∀ rc x, same_monitoring rc (f rc x)) →
  ∀ rc, same_monitoring rc (foldl f rc l).
Proof.
  intros Hf. induction l as [|x l IH]; intros rc; simpl; [apply same_monitoring_refl|].
  eapply same_monitoring_trans; [apply Hf|apply IH].
Qed.

Lemma same_monitoring_poolPathDataGroups rc tlsContext :
  same_monitoring rc (poolPathDataGroups E rc tlsContext).
Proof.
  unfold poolPathDataGroups. apply same_monitoring_foldl.
  intros rc' ref. repeat case_bool_decide; by repeat split.
Qed.

Lemma same_monitoring_handleTLS_http rc tlsContext :
  same_monitoring rc (handleTLS_http E rc tlsContext).
Proof.
  unfold handleTLS_http. case_bool_decide; [|apply same_monitoring_refl].
  case_bool_decide; simpl.
  - eapply same_monitoring_trans;
      [eapply same_monitoring_trans;
         [apply same_monitoring_addIRule|apply same_monitoring_AddIRule]|].
    by repeat split.
  - eapply same_monitoring_trans;
      [eapply same_monitoring_trans;
         [apply same_monitoring_addIRule|apply same_monitoring_AddIRule]|].
    by repeat split.
Qed.
End BuildSteps.

Lemma find_index_Some {A} (p : A → bool) l i :
  find_index p l = Some i → ∃ x, l !! i = Some x ∧ p x = true.
Proof.
  revert i. induction l as [|y l IH]; intros i; simpl; [done|].
  destruct (p y) eqn:Hp.
  - intros [= <-]. eauto.
  - destruct (find_index p l) as [j|]; [|done]. simpl. intros [= <-].
    destruct (IH j eq_refl) as (x & ? & ?). eauto.
Qed.

Lemma elem_of_list_insert_inv {A} (l : list A) i x y :
  y ∈ <[i:=x]> l → y = x ∨ y ∈ l.
Proof.
  intros Hin. apply list_elem_of_lookup in Hin as [j Hj].
  apply list_lookup_insert_Some in Hj as [(-> & -> & _)|[_ Hj]]; [by left|].
  right. by eapply list_elem_of_lookup_2.
Qed.

Lemma AddOrUpdateProfile_VirtualAddress v prof :
  v_VirtualAddress (AddOrUpdateProfile v prof) = v_VirtualAddress v.
Proof.
  unfold AddOrUpdateProfile. destruct (v_Profiles v !! _); [|done].
  destruct (_ && _); [|done]. by case_bool_decide.
Qed.

Section BuildInvariant.
Context (E : Externals) (routes : list routeapi_Route).
Hypothesis frame : collaborators_frame E.

Lemma secretProfile_same create context tlsContext profile st st' :
  (∀ rc s c rc', create rc s c = Some rc' → same_monitoring rc rc') →
  (secretProfile E create context tlsContext profile st = inl st' ∨
   secretProfile E create context tlsContext profile st = inr st') →
  same_monitoring st.2 st'.2.
Proof.
  intros Hc. unfold secretProfile. destruct st as [sslCtx rsCfg].
  case_bool_decide; [|intros [Hx|Hx]; [discriminate Hx|injection Hx as <-]; apply same_monitoring_refl].
  destruct (sslCtx !! profile) as [secret|].
  - destruct (create rsCfg secret context) as [rc'|] eqn:Hcr;
      intros [[=]|[=]]; subst; simpl; eauto using same_monitoring_refl.
  - destruct (getSecret E _ profile) as [secret|];
      [|intros [Hx|Hx]; [injection Hx as <-|discriminate Hx]; apply same_monitoring_refl].
    destruct (create rsCfg secret context) as [rc'|] eqn:Hcr;
      intros [[=]|[=]]; subst; simpl; eauto using same_monitoring_refl.
Qed.

Lemma processProfiles_same st tlsContext st' :
  (processProfiles E st tlsContext = inl st' ∨
   processProfiles E st tlsContext = inr st') →
  same_monitoring st.2 st'.2.
Proof.
  unfold processProfiles. destruct st as [sslCtx rsCfg].
  destruct (bool_decide (tx_referenceType tlsContext = BIGIP)).
  { intros [Hx|Hx]; [discriminate Hx|injection Hx as <-]. simpl. repeat split.
    simpl.
    destruct (bool_decide (bp_clientSSL _ ≠ "")), (bool_decide (bp_serverSSL _ ≠ ""));
      by rewrite ?AddOrUpdateProfile_VirtualAddress. }
  destruct (bool_decide (tx_referenceType tlsContext = Secret)).
  { destruct (secretProfile E (createSecretClientSSLProfile E) _ _ _ _) as [st1|st1] eqn:H1.
    - intros [Hx|Hx]; [injection Hx as <-|discriminate Hx].
      eapply (secretProfile_same _ _ _ _ (sslCtx, rsCfg) st1);
        [apply (frame_secret_client E frame)|eauto].
    - intros H2.
      eapply same_monitoring_trans.
      + eapply (secretProfile_same _ _ _ _ (sslCtx, rsCfg) st1);
          [apply (frame_secret_client E frame)|eauto].
      + eapply (secretProfile_same _ _ _ _ st1 st');
          [apply (frame_secret_server E frame)|eauto]. }
  destruct (bool_decide (tx_referenceType tlsContext = Certificate));
    [|intros [Hx|Hx]; [injection Hx as <-|discriminate Hx]; apply same_monitoring_refl].
  match goal with
  | |- context [match ?c with Some _ => _ | None => _ end] =>
      destruct c as [rc1|] eqn:H1
  end; [|intros [Hx|Hx]; [injection Hx as <-|discriminate Hx]; apply same_monitoring_refl].
  assert (same_monitoring rsCfg rc1) as Hrc1.
  { destruct (_ && _); [by eapply (frame_client E frame)|].
    injection H1 as <-. apply same_monitoring_refl. }
  destruct (bool_decide (bp_destinationCACertificate _ ≠ ""));
    [|intros [Hx|Hx]; [discriminate Hx|injection Hx as <-]; exact Hrc1].
  match goal with
  | |- context [match ?c with Some _ => _ | None => _ end] =>
      destruct c as [rc2|] eqn:H2
  end.
  - intros [Hx|Hx]; [discriminate Hx|injection Hx as <-]. simpl.
    eapply same_monitoring_trans; [exact Hrc1|].
    destruct (bool_decide (bp_caCertificate _ ≠ "")); by eapply (frame_server E frame).
  - intros [Hx|Hx]; [injection Hx as <-|discriminate Hx]. exact Hrc1.
Qed.

Lemma handleTLS_https_same st tlsContext :
  same_monitoring st.2 (handleTLS_https E st tlsContext).1.2.
Proof.
  unfold handleTLS_https. case_bool_decide; [apply same_monitoring_refl|].
  destruct (processProfiles E st tlsContext) as [st1|[sslCtx rsCfg]] eqn:Hp.
  - simpl. eapply processProfiles_same. eauto.
  - assert (same_monitoring st.2 rsCfg) as H1
      by (eapply (processProfiles_same st tlsContext (sslCtx, rsCfg)); eauto).
    assert (same_monitoring st.2 (poolPathDataGroups E rsCfg tlsContext)) as H2.
    { eapply same_monitoring_trans; [exact H1|apply same_monitoring_poolPathDataGroups]. }
    repeat case_bool_decide; simpl; try exact H2;
      (eapply same_monitoring_trans; [exact H2|]);
      (eapply same_monitoring_trans; [|apply same_monitoring_handleDataGroupIRules]);
      by repeat split.
Qed.

Lemma handleTLS_same st tlsContext st' b :
  handleTLS E st tlsContext = Some (st', b) → same_monitoring st.2 st'.2.
Proof.
  unfold handleTLS. destruct (v_VirtualAddress _) as [va|]; [|done]. simpl.
  destruct (bool_decide (va_Port va = tx_httpsPort tlsContext)); intros Hx.
  - pose proof (handleTLS_https_same st tlsContext) as H.
    injection Hx as Hx. by rewrite Hx in H.
  - injection Hx as <- <-. apply same_monitoring_handleTLS_http.
Qed.

Lemma handleRouteTLS_same st route spec port st' b :
  handleRouteTLS E st route spec port = Some (st', b) → same_monitoring st.2 st'.2.
Proof.
  unfold handleRouteTLS. destruct (rt_TLS route).
  - apply handleTLS_same.
  - intros [= <- <-]. apply same_monitoring_refl.
Qed.
End BuildInvariant.

Section BuildLoops.
Context (E : Externals) (routes : list routeapi_Route).
Hypothesis frame : collaborators_frame E.

Lemma bindMonitor_step rsCfg route pool rsCfg' pool' :
  bindMonitor rsCfg route pool = (rsCfg', pool') →
  route ∈ routes →
  build_step routes rsCfg (set_Pools rsCfg' (Pools rsCfg' ++ [pool'])).
Proof.
  unfold bindMonitor. intros Hb Hroute.
  destruct (find_index _ (Monitors rsCfg)) as [index|] eqn:Hf.
  - apply find_index_Some in Hf as (monitor & Hm & Hpre). rewrite Hm in Hb.
    injection Hb as <- <-. split; [|done].
    intros Hbound m Hin Huse. simpl in Hin.
    apply elem_of_list_insert_inv in Hin as [->|Hin].
    + exists route. eexists. split; [done|]. split; [exact Hpre|]. simpl.
      split; [apply elem_of_app; right; left|].
      simpl. apply elem_of_app. right. left.
    + destruct (Hbound m Hin Huse) as (r & p & ? & ? & ? & ?).
      exists r, p. repeat split; auto. simpl. apply elem_of_app. by left.
  - injection Hb as <- <-. split; [|done].
    intros Hbound m Hin Huse. simpl in Hin.
    destruct (Hbound m Hin Huse) as (r & p & ? & ? & ? & ?).
    exists r, p. repeat split; auto. simpl. apply elem_of_app. by left.
Qed.

Lemma backendLoop_step route servicePort : route ∈ routes →
  ∀ backendSvcs rsCfg,
  match backendLoop E rsCfg route servicePort backendSvcs with
  | Done rsCfg' | Failed rsCfg' _ => build_step routes rsCfg rsCfg'
  | Panicked => True
  end.
Proof.
  intros Hroute. induction backendSvcs as [|bs rest IH]; intros rsCfg;
    cbn [backendLoop]; [apply build_step_refl|].
  match goal with
  | |- context [bindMonitor rsCfg route ?pool] =>
      destruct (bindMonitor rsCfg route pool) as [rsCfg1 pool1] eqn:Hb
  end.
  pose proof (bindMonitor_step _ _ _ _ _ Hb Hroute) as H1.
  set (rsCfg2 := set_Pools rsCfg1 (Pools rsCfg1 ++ [pool1])) in *.
  destruct (negb (isPassthroughRoute route) && negb (IsRouteABDeployment E route)).
  - destruct (prepareRouteLTMRules E route _ _) as [rules|]; [|exact H1].
    destruct (AddRuleToPolicy E rsCfg2 _ _ rules) as [rsCfg3|] eqn:Ha; [|done].
    pose proof (same_monitoring_step routes _ _
                  (same_monitoring_AddRuleToPolicy E _ _ _ _ _ Ha)) as H2.
    specialize (IH rsCfg3).
    destruct (backendLoop E rsCfg3 route servicePort rest); [| |done];
      eauto using build_step_trans.
  - specialize (IH rsCfg2).
    destruct (backendLoop E rsCfg2 route servicePort rest); [| |done];
      eauto using build_step_trans.
Qed.

Lemma prepareResourceConfigFromRoute_step rsCfg route servicePort ps :
  route ∈ routes →
  match prepareResourceConfigFromRoute E rsCfg route servicePort ps with
  | Done rsCfg' | Failed rsCfg' _ => build_step routes rsCfg rsCfg'
  | Panicked => True
  end.
Proof.
  intros Hroute. unfold prepareResourceConfigFromRoute.
  match goal with |- context [if ?c then Done rsCfg else _] => destruct c end;
    [apply build_step_refl|].
  match goal with
  | |- context [backendLoop E ?rc route servicePort ?l] =>
      pose proof (backendLoop_step route servicePort Hroute l rc) as H;
      destruct (backendLoop E rc route servicePort l); [| |done]
  end.
  - destruct H as [H1 H2]. split; [|exact H2]. intros Hb. apply H1.
    intros m Hin Huse. apply (Hb m Hin Huse).
  - destruct H as [H1 H2]. split; [|exact H2]. intros Hb. apply H1.
    intros m Hin Huse. apply (Hb m Hin Huse).
Qed.

(** The loop over the routes leaves the store of virtual servers and
    the extended specs alone. *)
Lemma routesLoop_step extdSpec ps : ∀ l ctlr rsCfg bs,
  (∀ r, r ∈ l → r ∈ routes) →
  routesLoop E ctlr rsCfg extdSpec ps l = Some bs →
  build_step routes rsCfg (bs_rsCfg bs) ∧
  ltmConfig (resources (bs_ctlr bs)) = ltmConfig (resources ctlr) ∧
  extdSpecMap (resources (bs_ctlr bs)) = extdSpecMap (resources ctlr) ∧
  PoolMemberType (bs_ctlr bs) = PoolMemberType ctlr.
Proof.
  induction l as [|rt rest IH]; intros ctlr rsCfg bs Hsub H; cbn [routesLoop] in H.
  - injection H as <-. split; [apply build_step_refl|done].
  - assert (rt ∈ routes) as Hrt by (apply Hsub; left).
    assert (∀ r, r ∈ rest → r ∈ routes) as Hsub' by (intros; apply Hsub; by right).
    match type of H with
    | context [prepareResourceConfigFromRoute E ?rc rt ?sp ps] =>
        pose proof (prepareResourceConfigFromRoute_step rc rt sp ps Hrt) as Hp;
        destruct (prepareResourceConfigFromRoute E rc rt sp ps) as [rc1|rc1 msg|];
        [| |done];
        assert (build_step routes rsCfg rc1) as Hstep
          by (destruct Hp as [Hp1 Hp2]; split;
              [intros Hb; apply Hp1; intros m Hin Huse; apply (Hb m Hin Huse)
              |exact Hp2])
    end.
    + destruct (isSecureRoute rt).
      * destruct (handleRouteTLS E _ rt extdSpec _) as [[st processed]|] eqn:Ht; [|done].
        simpl in H.
        pose proof (same_monitoring_step routes _ _
                      (handleRouteTLS_same E frame _ _ _ _ _ _ Ht)) as Htls.
        simpl in Htls.
        destruct processed.
        -- destruct (IH _ _ _ Hsub' H) as (H1 & H2 & H3 & H4).
           split; [eauto using build_step_trans|]. done.
        -- injection H as <-. simpl. split; [eauto using build_step_trans|]. done.
      * destruct (IH _ _ _ Hsub' H) as (H1 & H2 & H3 & H4).
        split; [eauto using build_step_trans|]. done.
    + injection H as <-. simpl. done.
Qed.
End BuildLoops.

(** ** The store of virtual servers *)

Lemma no_new_refl rs : no_new rs rs.
Proof. by intros p n rc. Qed.

Lemma no_new_trans rs1 rs2 rs3 : no_new rs1 rs2 → no_new rs2 rs3 → no_new rs1 rs3.
Proof. intros H1 H2 p n rc H. by apply H1, H2. Qed.

Lemma no_new_ltmConfig rs rs' : ltmConfig rs' = ltmConfig rs → no_new rs rs'.
Proof. intros Heq p n rc. unfold getResource. by rewrite Heq. Qed.

Lemma getResource_deleteVirtualServer rs partition rsName p n rc :
  getResource (deleteVirtualServer rs partition rsName) p n = Some rc →
  getResource rs p n = Some rc ∧ ¬ (p = partition ∧ n = rsName).
Proof.
  unfold deleteVirtualServer, getPartitionResourceMap, getResource.
  destruct (ltmConfig rs !! partition) as [rsMap|] eqn:Hp; simpl.
  - destruct (decide (p = partition)) as [->|Hne].
    + rewrite lookup_insert_eq. simpl. rewrite Hp. simpl.
      intros H. apply lookup_delete_Some in H as [? ?]. split; [done|]. intros [_ ?]. done.
    + rewrite lookup_insert_ne by done. intros H. split; [done|]. by intros [? _].
  - destruct (decide (p = partition)) as [->|Hne].
    + rewrite lookup_insert_eq. simpl. rewrite delete_empty, lookup_empty. done.
    + rewrite !lookup_insert_ne by done. intros H. split; [done|]. by intros [? _].
Qed.

Lemma no_new_deleteVirtualServer rs partition rsName :
  no_new rs (deleteVirtualServer rs partition rsName).
Proof. intros p n rc H. by apply getResource_deleteVirtualServer in H as [? _]. Qed.

Lemma getResource_storeVirtualServer rs partition name rscfg p n rc :
  getResource (storeVirtualServer rs partition name rscfg) p n = Some rc →
  (p = partition ∧ n = name ∧ rc = rscfg) ∨ getResource rs p n = Some rc.
Proof.
  unfold storeVirtualServer, getPartitionResourceMap, getResource.
  destruct (ltmConfig rs !! partition) as [rsMap|] eqn:Hp; simpl.
  - destruct (decide (p = partition)) as [->|Hne].
    + rewrite lookup_insert_eq. simpl. rewrite Hp. simpl.
      intros H. apply lookup_insert_Some in H as [[-> ->]|[_ ?]]; auto.
    + rewrite lookup_insert_ne by done. auto.
  - destruct (decide (p = partition)) as [->|Hne].
    + rewrite lookup_insert_eq. simpl.
      intros H. apply lookup_insert_Some in H as [[-> ->]|[_ H]]; auto.
      by rewrite lookup_empty in H.
    + rewrite !lookup_insert_ne by done. auto.
Qed.

(** The commit of [processRoutes]. *)
Lemma commit_new partition (l : list (string * ResourceConfig)) : ∀ ctlr p n rc,
  getResource
    (resources
       (foldl (λ ctlr '(name, rscfg),
                 set_resources ctlr
                   (storeVirtualServer (resources ctlr) partition name rscfg))
              ctlr l)) p n = Some rc →
  (n, rc) ∈ l ∨ getResource (resources ctlr) p n = Some rc.
Proof.
  induction l as [|[name rscfg] l IH]; intros ctlr p n rc H; simpl in H; [by right|].
  apply IH in H as [H|H]; [left; by right|]. simpl in H.
  apply getResource_storeVirtualServer in H as [(-> & -> & ->)|H]; [left; left|by right].
Qed.

(** ** The build of a route group *)

Lemma handleRouteGroupExtendedSpec_monitors rsCfg extdSpec :
  Forall (λ m, mon_InUse m = false) (Monitors rsCfg) →
  Forall (λ m, mon_InUse m = false) (Monitors (handleRouteGroupExtendedSpec rsCfg extdSpec)) ∧
  v_VirtualAddress (rc_Virtual (handleRouteGroupExtendedSpec rsCfg extdSpec))
    = v_VirtualAddress (rc_Virtual rsCfg).
Proof.
  unfold handleRouteGroupExtendedSpec.
  match goal with
  | |- context [foldl ?f (set_Virtual rsCfg ?v) _] =>
      set (step := f); set (rc0 := set_Virtual rsCfg v)
  end.
  intros H0.
  assert (Forall (λ m, mon_InUse m = false) (Monitors rc0) ∧
          v_VirtualAddress (rc_Virtual rc0) = v_VirtualAddress (rc_Virtual rsCfg)) as Hrc0
    by done.
  clearbody rc0. revert rc0 Hrc0.
  induction (HealthMonitors extdSpec) as [|hm l IH]; intros rc0 [H1 H2]; simpl; [done|].
  apply IH. split; [|exact H2]. simpl. apply Forall_app. split; [done|].
  by repeat constructor.
Qed.

Lemma not_in_use_bound routes rc :
  Forall (λ m, mon_InUse m = false) (Monitors rc) → monitors_bound routes rc.
Proof.
  intros H m Hin Huse. rewrite Forall_forall in H. specialize (H m Hin). congruence.
Qed.

Lemma removeUnused_used routes rc rc' :
  monitors_bound routes rc → removeUnusedHealthMonitors rc = Some rc' →
  monitors_used routes rc' ∧
  v_VirtualAddress (rc_Virtual rc') = v_VirtualAddress (rc_Virtual rc).
Proof.
  rewrite removeUnusedHealthMonitors_filter. intros Hb [= <-]. split; [|done]. split.
  - simpl. apply Forall_forall. intros m Hm. by apply list_elem_of_filter in Hm as [? _].
  - intros m Hin Huse. simpl in Hin. apply list_elem_of_filter in Hin as [_ Hin].
    apply (Hb m Hin Huse).
Qed.

Lemma same_monitoring_used routes rc rc' :
  same_monitoring rc rc' → monitors_used routes rc → monitors_used routes rc'.
Proof.
  intros Hs [Hall Hb]. split; [|by eapply same_monitoring_bound].
  destruct Hs as (-> & _). done.
Qed.

(** The loops of the build and the store: the loop over the routes leaves
    the virtual servers and the extended specs alone, the loop over the
    ports adds nothing and removes at most the HTTP virtual server. *)
Section BuildStore.
Context (E : Externals).

Lemma routesLoop_store extdSpec ps : ∀ l ctlr rsCfg bs,
  routesLoop E ctlr rsCfg extdSpec ps l = Some bs →
  ltmConfig (resources (bs_ctlr bs)) = ltmConfig (resources ctlr) ∧
  extdSpecMap (resources (bs_ctlr bs)) = extdSpecMap (resources ctlr).
Proof.
  induction l as [|rt rest IH]; intros ctlr rsCfg bs H; cbn [routesLoop] in H.
  - by injection H as <-.
  - destruct (prepareResourceConfigFromRoute E _ rt _ ps) as [rc1|rc1 msg|]; [| |done].
    + destruct (isSecureRoute rt).
      * destruct (handleRouteTLS E _ rt extdSpec _) as [[st processed]|]; [|done].
        simpl in H. destruct processed; [by apply IH in H|by injection H as <-].
      * by apply IH in H.
    + by injection H as <-.
Qed.

Lemma portsLoop_store routeGroup partition extdSpec routes :
  ∀ portStructs ctlr vsMap gs,
  portsLoop E ctlr vsMap routeGroup partition extdSpec routes portStructs = Some gs →
  no_new (resources ctlr) (resources (gs_ctlr gs)) ∧
  (doRoutesHandleHTTP routes = true →
   ltmConfig (resources (gs_ctlr gs)) = ltmConfig (resources ctlr)).
Proof.
  induction portStructs as [|ps rest IH]; intros ctlr vsMap gs H;
    cbn [portsLoop] in H.
  - injection H as <-. simpl. split; [apply no_new_refl|done].
  - destruct (bool_decide (ps_protocol ps = "http") && negb (doRoutesHandleHTTP routes))
      eqn:Hdel.
    + destruct (IH _ _ _ H) as (H2 & H3). split.
      * eapply no_new_trans; [|exact H2]. simpl. apply no_new_deleteVirtualServer.
      * intros Hh. rewrite Hh, andb_false_r in Hdel. done.
    + destruct (routesLoop E ctlr _ extdSpec ps routes) as [bs|] eqn:Hrl; [|done].
      simpl in H. destruct (routesLoop_store _ _ _ _ _ _ Hrl) as [Hltm Hext].
      destruct (removeUnusedHealthMonitors (bs_rsCfg bs)) as [rsCfg|]; [|done].
      simpl in H.
      destruct (bs_processingError bs).
      * injection H as <-. simpl. split; [by apply no_new_ltmConfig|done].
      * destruct (extdSpecMap (resources (bs_ctlr bs)) !! routeGroup) as [parsed|];
          [|done]. simpl in H.
        destruct (IH _ _ _ H) as (H2 & H3). split.
        -- eapply no_new_trans; [|exact H2]. by apply no_new_ltmConfig.
        -- intros Hh. rewrite (H3 Hh). done.
Qed.

Lemma deleteVirtuals_no_new partition extdSpec (pss : list portStruct) : ∀ ctlr,
  no_new (resources ctlr)
    (resources
       (foldl (λ ctlr ps,
                 let rsName :=
                   frameRouteVSName (VServerName extdSpec) (VServerAddr extdSpec) ps in
                 match getVirtualServer ctlr partition rsName with
                 | Some _ =>
                     set_resources ctlr
                       (deleteVirtualServer (resources ctlr) partition rsName)
                 | None => ctlr
                 end)
              ctlr pss)).
Proof.
  induction pss as [|ps pss IH]; intros ctlr; simpl; [apply no_new_refl|].
  eapply no_new_trans; [|apply IH].
  destruct (getVirtualServer ctlr partition _); [|apply no_new_refl].
  simpl. apply no_new_deleteVirtualServer.
Qed.
End BuildStore.

Section GroupBuild.
Context (E : Externals).
Hypothesis frame : collaborators_frame E.

Lemma same_monitoring_updatePoolMembers ctlr rc nss :
  same_monitoring rc (updatePoolMembers E ctlr rc nss).
Proof.
  unfold updatePoolMembers. apply same_monitoring_foldl.
  intros rc' ns. case_bool_decide; apply frame.
Qed.

Lemma portsLoop_inv routeGroup partition extdSpec routes :
  ∀ portStructs ctlr vsMap gs,
  portsLoop E ctlr vsMap routeGroup partition extdSpec routes portStructs = Some gs →
  map_Forall (λ _ rc, monitors_used routes rc) vsMap →
  map_Forall (λ _ rc, monitors_used routes rc) (gs_vsMap gs).
Proof.
  induction portStructs as [|ps rest IH]; intros ctlr vsMap gs H Hvs;
    cbn [portsLoop] in H.
  - by injection H as <-.
  - destruct (bool_decide (ps_protocol ps = "http") && negb (doRoutesHandleHTTP routes)).
    + by apply IH in H.
    + destruct (routesLoop E ctlr _ extdSpec ps routes) as [bs|] eqn:Hrl; [|done].
      simpl in H.
      destruct (routesLoop_step E routes frame extdSpec ps routes ctlr _ bs
                  ltac:(done) Hrl) as ([Hb Hva] & _).
      destruct (removeUnusedHealthMonitors (bs_rsCfg bs)) as [rsCfg|] eqn:Hrm; [|done].
      simpl in H.
      destruct (bs_processingError bs); [by injection H as <-|].
      destruct (extdSpecMap (resources (bs_ctlr bs)) !! routeGroup) as [parsed|];
        [|done]. simpl in H.
      match type of Hb with
      | monitors_bound _ ?rc0 → _ =>
          assert (monitors_bound routes rc0) as Hb0
      end.
      { apply not_in_use_bound.
        apply handleRouteGroupExtendedSpec_monitors. simpl. constructor. }
      destruct (removeUnused_used routes _ _ (Hb Hb0) Hrm) as [Hused _].
      pose proof (same_monitoring_used routes _ _
                    (same_monitoring_updatePoolMembers (bs_ctlr bs) rsCfg
                       (namespaces parsed)) Hused) as Hused'.
      apply (IH _ _ _ H). by apply map_Forall_insert_2.
Qed.

Lemma resolveRoutes_resources spec : ∀ l ctlr acc c' a',
  resolveRoutes E ctlr l spec acc = Some (c', a') →
  resources c' = resources ctlr ∧ SSLContext c' = SSLContext ctlr.
Proof.
  induction l as [|r l IH]; intros ctlr acc c' a' H.
  - simpl in H. by injection H as <- <-.
  - rewrite resolveRoutes_cons in H.
    destruct (checkValidRoute E ctlr r (Some spec)) as [[c1 b]|] eqn:Hc; [|done].
    apply checkValidRoute_cases in Hc
      as [(t0 & _ & _ & -> & ->)|[_ [(Hp & -> & ->)|(reason & _ & -> & ->)]]];
      by apply IH in H.
Qed.

Lemma getGroupedRoutes_resources ctlr routeGroup spec c' routes :
  getGroupedRoutes E ctlr routeGroup spec = Some (c', routes) →
  resources c' = resources ctlr.
Proof.
  unfold getGroupedRoutes.
  destruct (extdSpecMap (resources ctlr) !! routeGroup) as [parsed|]; [|done]. simpl.
  generalize (@nil routeapi_Route). revert ctlr.
  induction (namespaces parsed) as [|ns nss IH]; intros ctlr acc H; simpl in H.
  - by injection H as <- <-.
  - destruct (resolveRoutes E ctlr _ spec acc) as [[c1 a1]|] eqn:Hr; [|done].
    simpl in H. apply IH in H. rewrite H.
    by apply resolveRoutes_resources in Hr as [? _].
Qed.
End GroupBuild.

Section CommittedMonitors.
Context (E : Externals).

(** C9. [removeUnusedHealthMonitors] keeps exactly the monitors marked
    in use. And when the collaborators that create TLS profiles and fill
    in pool members leave monitors, monitor names and the virtual
    address alone, every virtual server in the store after
    [processRoutes] that was not there before has only monitors in use,
    each named by one of its pools and matching host and path of an
    accepted route; a monitor that no pool bound does not appear. *)
Theorem committed_monitors_in_use :
  (∀ rsCfg, ∃ rsCfg',
     removeUnusedHealthMonitors rsCfg = Some rsCfg' ∧
     Forall (λ m, mon_InUse m = true) (Monitors rsCfg') ∧
     (∀ m, m ∈ Monitors rsCfg' ↔ m ∈ Monitors rsCfg ∧ mon_InUse m = true)) ∧
  (collaborators_frame E →
   ∀ ctlr routeGroup triggerDelete ctlr',
     final_state (processRoutes E ctlr routeGroup triggerDelete) = Some ctlr' →
     ∀ p n rc, getResource (resources ctlr') p n = Some rc →
       getResource (resources ctlr) p n = Some rc ∨
       ∃ spec c1 routes,
         getExtendedRouteSpec (resources ctlr) routeGroup = Some spec ∧
         getGroupedRoutes E ctlr routeGroup spec = Some (c1, routes) ∧
         monitors_used routes rc).
Proof.
  split.
  - intros rsCfg. eexists. split; [apply removeUnusedHealthMonitors_filter|].
    simpl. split.
    + apply Forall_forall. intros m Hm. by apply list_elem_of_filter in Hm as [? _].
    + intros m. rewrite list_elem_of_filter. naive_solver.
  - intros frame ctlr routeGroup triggerDelete ctlr' Hfin p n rc Hres.
    unfold processRoutes in Hfin.
    destruct (getExtendedRouteSpec (resources ctlr) routeGroup) as [spec|] eqn:Hspec;
      [|simpl in Hfin; injection Hfin as <-; by left].
    destruct (extdSpecMap (resources ctlr) !! routeGroup) as [parsed|]; [|done].
    destruct (getGroupedRoutes E ctlr routeGroup spec) as [[c1 routes]|] eqn:Hgr; [|done].
    pose proof (getGroupedRoutes_resources E _ _ _ _ _ Hgr) as Hc1.
    destruct (triggerDelete || (length routes =? 0)%nat).
    + cbn [final_state] in Hfin. injection Hfin as <-. left. rewrite <- Hc1.
      exact (deleteVirtuals_no_new (partition parsed) spec getBasicVirtualPorts c1
               p n rc Hres).
    + destruct (portsLoop E c1 ∅ routeGroup (partition parsed) spec routes _)
        as [gs|] eqn:Hpl; [|done].
      destruct (portsLoop_store E _ _ _ _ _ _ _ _ Hpl) as [Hnn _].
      pose proof (portsLoop_inv E frame _ _ _ _ _ _ _ _ Hpl (map_Forall_empty _)) as Hvs.
      destruct (gs_processingError gs); cbn [final_state negb] in Hfin;
        injection Hfin as <-.
      * left. rewrite <- Hc1. by apply Hnn.
      * apply commit_new in Hres as [Hin|Hold].
        -- right. exists spec, c1, routes. split; [done|]. split; [done|].
           apply elem_of_map_to_list in Hin. by apply (Hvs n rc).
        -- left. rewrite <- Hc1. by apply Hnn.
Qed.
End CommittedMonitors.

Lemma sample_externals_frame store : collaborators_frame (sample_externals store).
Proof. split; intros; simplify_eq/=; by repeat split. Qed.

Lemma committed_monitors_in_use_witness :
  ∃ ctlr' rc,
    processRoutes (sample_externals [route_R1]) ctlr_monitored "default" false = Done ctlr' ∧
    getResource (resources ctlr') "test" "gw_80" = Some rc ∧
    length (HealthMonitors spec_monitored) = 2%nat ∧
    mon_Path <$> Monitors rc = ["example.com/"] ∧
    monitors_used [route_R1] rc.
Proof.
  set (E := sample_externals [route_R1]).
  destruct (processRoutes E ctlr_monitored "default" false) as [ctlr'| |] eqn:Hp;
    [|vm_compute in Hp; discriminate Hp..].
  destruct (getResource (resources ctlr') "test" "gw_80") as [rc|] eqn:Hrc.
  2: { exfalso. vm_compute in Hp. injection Hp as <-. vm_compute in Hrc. discriminate Hrc. }
  exists ctlr', rc. split; [reflexivity|]. split; [exact Hrc|]. split; [reflexivity|].
  split.
  - vm_compute in Hp. injection Hp as <-. vm_compute in Hrc. injection Hrc as <-.
    reflexivity.
  - destruct (proj2 (committed_monitors_in_use E) (sample_externals_frame _)
                ctlr_monitored "default" false ctlr' ltac:(by rewrite Hp)
                "test" "gw_80" rc Hrc) as [Hold|(spec & c1 & routes & Hs & Hg & Hu)].
    + vm_compute in Hold. discriminate Hold.
    + vm_compute in Hs. injection Hs as <-. vm_compute in Hg. injection Hg as <- <-.
      exact Hu.
Defined.

(** ** Reencrypt termination with insecure traffic allowed *)

Section ReencryptAllow.
Context (E : Externals).
Context (rt : routeapi_Route) (tls : TLSConfig).
Hypothesis rt_tls : rt_TLS rt = Some tls.
Hypothesis rt_reencrypt : tc_Termination tls = TLSReencrypt.
Hypothesis rt_allow :
  ToLower (tc_InsecureEdgeTerminationPolicy tls) = TLSAllowInsecure.

Lemma handleRouteTLS_reencrypt_allow st spec port va :
  v_VirtualAddress (rc_Virtual st.2) = Some va → va_Port va = DEFAULT_HTTPS_PORT →
  ∃ st', handleRouteTLS E st rt spec port = Some (st', false).
Proof.
  intros Hva Hport. unfold handleRouteTLS. rewrite rt_tls.
  unfold handleTLS. rewrite Hva. cbn [mbind option_bind tx_httpsPort].
  rewrite (bool_decide_true _ Hport).
  unfold handleTLS_https. cbn [tx_termination tx_httpTraffic].
  rewrite rt_reencrypt, rt_allow.
  rewrite (bool_decide_false (TLSReencrypt = TLSPassthrough)) by discriminate.
  destruct (processProfiles E st _) as [st1|[sslCtx rsCfg]]; [by eexists|].
  rewrite (bool_decide_true (TLSReencrypt = TLSReencrypt)) by done.
  rewrite (bool_decide_true (TLSAllowInsecure = TLSAllowInsecure)) by done.
  by eexists.
Qed.

Lemma doRoutesHandleHTTP_allow routes :
  tc_InsecureEdgeTerminationPolicy tls = InsecureEdgeTerminationPolicyAllow →
  rt ∈ routes → doRoutesHandleHTTP routes = true.
Proof.
  intros Hpol Hin. unfold doRoutesHandleHTTP. apply existsb_exists. exists rt.
  split; [by apply list_elem_of_In|]. rewrite rt_tls, Hpol.
  by rewrite bool_decide_true.
Qed.

Lemma secure_ports routes : rt ∈ routes → getVirtualPortsForRoutes routes = getBasicVirtualPorts.
Proof.
  intros Hin. unfold getVirtualPortsForRoutes.
  assert (existsb isSecureRoute routes = true) as ->; [|done].
  apply existsb_exists. exists rt. split; [by apply list_elem_of_In|].
  unfold isSecureRoute. rewrite rt_tls. by apply bool_decide_true.
Qed.

Hypothesis frame : collaborators_frame E.

(** On the virtual server of the HTTPS port the loop over the routes
    cannot get past the route. *)
Lemma routesLoop_fails spec ps : ∀ l ctlr rsCfg bs va,
  v_VirtualAddress (rc_Virtual rsCfg) = Some va → va_Port va = DEFAULT_HTTPS_PORT →
  rt ∈ l →
  routesLoop E ctlr rsCfg spec ps l = Some bs → bs_processingError bs = true.
Proof.
  induction l as [|x rest IH]; intros ctlr rsCfg bs va Hva Hport Hin H;
    [by apply elem_of_nil in Hin|].
  cbn [routesLoop] in H.
  match type of H with
  | context [prepareResourceConfigFromRoute E ?rc x ?sp ps] =>
      pose proof (prepareResourceConfigFromRoute_step E (x :: rest) rc x sp ps
                    ltac:(left)) as Hp;
      destruct (prepareResourceConfigFromRoute E rc x sp ps) as [rc1|rc1 msg|];
      [| |done]
  end; [|by injection H as <-].
  destruct Hp as [_ Hva1]. simpl in Hva1. rewrite Hva in Hva1.
  apply elem_of_cons in Hin as [<-|Hin].
  - assert (isSecureRoute rt = true) as Hs
      by (unfold isSecureRoute; rewrite rt_tls; by apply bool_decide_true).
    rewrite Hs in H.
    destruct (handleRouteTLS_reencrypt_allow (SSLContext ctlr, rc1) spec
                (getServicePort E rt).2 va Hva1 Hport) as [st' Ht].
    rewrite Ht in H. simpl in H. by injection H as <-.
  - destruct (isSecureRoute x).
    + destruct (handleRouteTLS E _ x spec _) as [[st processed]|] eqn:Ht; [|done].
      simpl in H. destruct processed; [|by injection H as <-].
      apply (handleRouteTLS_same E frame) in Ht as (_ & _ & Hva2). simpl in Hva2.
      eapply (IH _ _ _ va); [|done|done|exact H]. congruence.
    + eapply (IH _ _ _ va); [|done|done|exact H]. done.
Qed.

(** The pass of the port loop for the HTTPS port ends in a processing
    error. *)
Lemma https_pass_aborts routeGroup part spec routes ctlr vsMap gs :
  rt ∈ routes →
  portsLoop E ctlr vsMap routeGroup part spec routes
    [mkPortStruct "https" DEFAULT_HTTPS_PORT] = Some gs →
  gs_processingError gs = true.
Proof.
  intros Hin H. cbn [portsLoop ps_protocol] in H.
  rewrite (bool_decide_false ("https" = "http")) in H by discriminate.
  cbn [andb] in H.
  destruct (routesLoop E ctlr _ spec _ routes) as [bs|] eqn:Hrl; [|done].
  simpl in H.
  assert (bs_processingError bs = true) as He.
  { destruct (handleRouteGroupExtendedSpec_monitors
                (newResourceConfig E part
                   (frameRouteVSName (VServerName spec) (VServerAddr spec)
                      (mkPortStruct "https" DEFAULT_HTTPS_PORT))
                   spec (mkPortStruct "https" DEFAULT_HTTPS_PORT)) spec
                ltac:(constructor)) as [_ Hva].
    eapply (routesLoop_fails _ _ _ _ _ _
              (mkVirtualAddress (VServerAddr spec) DEFAULT_HTTPS_PORT));
      [|reflexivity|exact Hin|exact Hrl].
    rewrite Hva. unfold newResourceConfig, SetVirtualAddress. simpl.
    rewrite andb_false_r. by destruct (split_ip_with_route_domain _). }
  destruct (removeUnusedHealthMonitors (bs_rsCfg bs)) as [rsCfg|]; [|done].
  simpl in H. rewrite He in H. by injection H as <-.
Qed.

Lemma portsLoop_aborts routeGroup part spec routes ctlr gs :
  rt ∈ routes →
  portsLoop E ctlr ∅ routeGroup part spec routes getBasicVirtualPorts = Some gs →
  gs_processingError gs = true.
Proof.
  intros Hin H. unfold getBasicVirtualPorts in H.
  remember [mkPortStruct "https" DEFAULT_HTTPS_PORT] as rest eqn:Hrest.
  cbn [portsLoop] in H.
  destruct (bool_decide _ && negb _).
  - subst rest. by eapply https_pass_aborts.
  - destruct (routesLoop E ctlr _ spec _ routes) as [bs|]; [|done]. simpl in H.
    destruct (removeUnusedHealthMonitors (bs_rsCfg bs)) as [rsCfg|]; [|done]. simpl in H.
    destruct (bs_processingError bs); [by injection H as <-|].
    destruct (extdSpecMap (resources (bs_ctlr bs)) !! routeGroup) as [parsed|]; [|done].
    simpl in H. subst rest. by eapply https_pass_aborts.
Qed.

(** C4. A route with reencrypt termination whose insecure-traffic policy
    reads allow (in any letter case, as [handleRouteTLS] lowers it): TLS
    handling on a configuration of the HTTPS port reports failure; when
    the route is among the accepted routes of its group, the build of
    the group stops with a processing error and [processRoutes] commits
    no virtual server: every virtual server of the store after it was in
    the store before it, and with the policy spelled [Allow] the store
    is the store before it. The collaborators that create TLS profiles
    are taken to leave the virtual address alone. *)
Theorem reencrypt_allow_aborts ctlr routeGroup spec parsed c1 routes :
  getExtendedRouteSpec (resources ctlr) routeGroup = Some spec →
  extdSpecMap (resources ctlr) !! routeGroup = Some parsed →
  getGroupedRoutes E ctlr routeGroup spec = Some (c1, routes) →
  rt ∈ routes →
  (∀ st port va,
     v_VirtualAddress (rc_Virtual st.2) = Some va → va_Port va = DEFAULT_HTTPS_PORT →
     ∃ st', handleRouteTLS E st rt spec port = Some (st', false)) ∧
  (∀ gs,
     portsLoop E c1 ∅ routeGroup (partition parsed) spec routes
       (getVirtualPortsForRoutes routes) = Some gs →
     gs_processingError gs = true ∧
     processRoutes E ctlr routeGroup false = Done (gs_ctlr gs)) ∧
  (∀ ctlr',
     final_state (processRoutes E ctlr routeGroup false) = Some ctlr' →
     no_new (resources ctlr) (resources ctlr') ∧
     (tc_InsecureEdgeTerminationPolicy tls = InsecureEdgeTerminationPolicyAllow →
      ltmConfig (resources ctlr') = ltmConfig (resources ctlr))).
Proof.
  intros Hspec Hparsed Hgr Hin.
  pose proof (getGroupedRoutes_resources E _ _ _ _ _ Hgr) as Hc1.
  assert ((length routes =? 0)%nat = false) as Hlen.
  { destruct routes; [by apply elem_of_nil in Hin|done]. }
  split; [intros; by eapply handleRouteTLS_reencrypt_allow|].
  split.
  - intros gs Hpl. pose proof Hpl as Hpl'. rewrite (secure_ports routes Hin) in Hpl'.
    pose proof (portsLoop_aborts _ _ _ _ _ _ Hin Hpl') as He. split; [done|].
    unfold processRoutes. rewrite Hspec, Hparsed, Hgr. cbn [orb]. rewrite Hlen, Hpl, He.
    done.
  - intros ctlr' Hfin. unfold processRoutes in Hfin.
    rewrite Hspec, Hparsed, Hgr in Hfin. cbn [orb] in Hfin. rewrite Hlen in Hfin.
    destruct (portsLoop E c1 ∅ _ _ _ _ _) as [gs|] eqn:Hpl; [|done].
    pose proof Hpl as Hpl'. rewrite (secure_ports routes Hin) in Hpl'.
    rewrite (portsLoop_aborts _ _ _ _ _ _ Hin Hpl') in Hfin.
    cbn [negb final_state] in Hfin. injection Hfin as <-.
    destruct (portsLoop_store E _ _ _ _ _ _ _ _ Hpl) as [Hnew Hltm].
    rewrite Hc1 in Hnew, Hltm. split; [done|].
    intros Hpol. apply Hltm. by apply doRoutesHandleHTTP_allow.
Qed.
End ReencryptAllow.

Lemma reencrypt_allow_aborts_witness :
  let E := sample_externals [route_reencrypt_allow] in
  ∃ ctlr',
    processRoutes E ctlr_serving "default" false = Done ctlr' ∧
    no_new (resources ctlr_serving) (resources ctlr') ∧
    ltmConfig (resources ctlr') = ltmConfig (resources ctlr_serving).
Proof.
  intros E.
  destruct (getGroupedRoutes E ctlr_serving "default" spec_gw) as [[c1 routes]|] eqn:Hg;
    [|vm_compute in Hg; discriminate Hg].
  assert (routes = [route_reencrypt_allow]) as Hr
    by (vm_compute in Hg; by injection Hg as _ <-).
  destruct (processRoutes E ctlr_serving "default" false) as [ctlr'| |] eqn:Hp;
    [|vm_compute in Hp; discriminate Hp..].
  exists ctlr'. split; [reflexivity|].
  destruct (reencrypt_allow_aborts E route_reencrypt_allow
              (mkTLSConfig "reencrypt" "" "" "" "" "Allow")
              eq_refl eq_refl eq_refl (sample_externals_frame _)
              ctlr_serving "default" spec_gw parsed_gw c1 routes
              ltac:(vm_compute; reflexivity) ltac:(vm_compute; reflexivity) Hg
              ltac:(rewrite Hr; left)) as (_ & _ & H3).
  destruct (H3 ctlr' ltac:(by rewrite Hp)) as [Hnew Hltm].
  split; [exact Hnew|]. apply Hltm. reflexivity.
Defined.

(** ** A failed build of a route group *)

Section FailedBuild.
Context (E : Externals).

Lemma https_pass_store routeGroup part spec routes ctlr vsMap gs :
  portsLoop E ctlr vsMap routeGroup part spec routes
    [mkPortStruct "https" DEFAULT_HTTPS_PORT] = Some gs →
  ltmConfig (resources (gs_ctlr gs)) = ltmConfig (resources ctlr).
Proof.
  intros H. cbn [portsLoop ps_protocol] in H.
  rewrite (bool_decide_false ("https" = "http")) in H by discriminate.
  cbn [andb] in H.
  destruct (routesLoop E ctlr _ spec _ routes) as [bs|] eqn:Hrl; [|done].
  simpl in H. destruct (routesLoop_store _ _ _ _ _ _ _ Hrl) as [Hltm _].
  destruct (removeUnusedHealthMonitors (bs_rsCfg bs)) as [rsCfg|]; [|done].
  simpl in H.
  destruct (bs_processingError bs); [by injection H as <-|].
  destruct (extdSpecMap (resources (bs_ctlr bs)) !! routeGroup) as [parsed|]; [|done].
  simpl in H. by injection H as <-.
Qed.

(** Without a route that handles HTTP traffic the port loop leaves the
    store with the HTTP virtual server of the group deleted, whether it
    fails later or not. *)
Lemma portsLoop_deletes_http routeGroup part spec routes ctlr vsMap gs :
  doRoutesHandleHTTP routes = false →
  portsLoop E ctlr vsMap routeGroup part spec routes (getVirtualPortsForRoutes routes)
    = Some gs →
  ltmConfig (resources (gs_ctlr gs)) =
  ltmConfig (deleteVirtualServer (resources ctlr) part
               (frameRouteVSName (VServerName spec) (VServerAddr spec)
                  (mkPortStruct "http" DEFAULT_HTTP_PORT))).
Proof.
  intros Hh H. unfold getVirtualPortsForRoutes, getBasicVirtualPorts in H.
  destruct (existsb isSecureRoute routes).
  - remember [mkPortStruct "https" DEFAULT_HTTPS_PORT] as rest eqn:Hrest.
    cbn [portsLoop ps_protocol] in H. rewrite Hh in H.
    rewrite (bool_decide_true ("http" = "http")) in H by done.
    cbn [andb negb] in H. subst rest.
    by apply https_pass_store in H.
  - cbn [portsLoop ps_protocol] in H. rewrite Hh in H.
    rewrite (bool_decide_true ("http" = "http")) in H by done.
    cbn [andb negb] in H. by injection H as <-.
Qed.

(** C3. A build of a route group with accepted routes that ends in a
    processing error: no virtual server built in the invocation is
    committed (every virtual server of the store after it was in the
    store before it); the store of virtual servers is the store before
    it when a route of the group handles HTTP traffic, and otherwise
    the store before it with the HTTP virtual server of the group
    deleted; [processRoutes] returns without error, so the route event
    is not marked retryable. *)
Theorem failed_build_commits_nothing ctlr routeGroup spec parsed c1 routes gs :
  getExtendedRouteSpec (resources ctlr) routeGroup = Some spec →
  extdSpecMap (resources ctlr) !! routeGroup = Some parsed →
  getGroupedRoutes E ctlr routeGroup spec = Some (c1, routes) →
  routes ≠ [] →
  portsLoop E c1 ∅ routeGroup (partition parsed) spec routes
    (getVirtualPortsForRoutes routes) = Some gs →
  gs_processingError gs = true →
  processRoutes E ctlr routeGroup false = Done (gs_ctlr gs) ∧
  no_new (resources ctlr) (resources (gs_ctlr gs)) ∧
  ltmConfig (resources (gs_ctlr gs)) =
    (if doRoutesHandleHTTP routes then ltmConfig (resources ctlr)
     else ltmConfig (deleteVirtualServer (resources ctlr) (partition parsed)
                       (frameRouteVSName (VServerName spec) (VServerAddr spec)
                          (mkPortStruct "http" DEFAULT_HTTP_PORT)))) ∧
  (∀ route,
     invertedNamespaceLabelMap (resources ctlr) !! rt_Namespace route = Some routeGroup →
     processRouteEvent E ctlr route = Some (gs_ctlr gs, false)).
Proof.
  intros Hspec Hparsed Hgr Hne Hpl He.
  pose proof (getGroupedRoutes_resources E _ _ _ _ _ Hgr) as Hc1.
  assert ((length routes =? 0)%nat = false) as Hlen by by destruct routes.
  assert (processRoutes E ctlr routeGroup false = Done (gs_ctlr gs)) as Hp.
  { unfold processRoutes. rewrite Hspec, Hparsed, Hgr. cbn [orb].
    by rewrite Hlen, Hpl, He. }
  destruct (portsLoop_store E _ _ _ _ _ _ _ _ Hpl) as [Hnew Hltm].
  rewrite Hc1 in Hnew, Hltm.
  split; [exact Hp|]. split; [exact Hnew|]. split.
  - destruct (doRoutesHandleHTTP routes) eqn:Hh; [by apply Hltm|].
    rewrite <- Hc1. by eapply portsLoop_deletes_http.
  - intros route Hrg. unfold processRouteEvent. by rewrite Hrg, Hp.
Qed.
End FailedBuild.

Lemma failed_build_commits_nothing_witness :
  let E := no_server_profile_externals [route_reencrypt] in
  ∃ c1 gs,
    getGroupedRoutes E ctlr_serving "default" spec_gw = Some (c1, [route_reencrypt]) ∧
    portsLoop E c1 ∅ "default" "test" spec_gw [route_reencrypt]
      (getVirtualPortsForRoutes [route_reencrypt]) = Some gs ∧
    gs_processingError gs = true ∧
    processRoutes E ctlr_serving "default" false = Done (gs_ctlr gs) ∧
    no_new (resources ctlr_serving) (resources (gs_ctlr gs)) ∧
    getResource (resources (gs_ctlr gs)) "test" "gw_443"
      = Some (vs_sample "gw_443" "https" 443).
Proof.
  intros E.
  destruct (getGroupedRoutes E ctlr_serving "default" spec_gw) as [[c1 routes]|] eqn:Hg;
    [|vm_compute in Hg; discriminate Hg].
  assert (routes = [route_reencrypt]) as ->
    by (vm_compute in Hg; by injection Hg as _ <-).
  destruct (portsLoop E c1 ∅ "default" "test" spec_gw [route_reencrypt]
              (getVirtualPortsForRoutes [route_reencrypt])) as [gs|] eqn:Hpl.
  2: { exfalso. vm_compute in Hg. injection Hg as <-. vm_compute in Hpl. discriminate Hpl. }
  assert (gs_processingError gs = true) as He.
  { vm_compute in Hg. injection Hg as <-. vm_compute in Hpl. by injection Hpl as <-. }
  exists c1, gs. split; [reflexivity|]. split; [exact Hpl|]. split; [exact He|].
  destruct (failed_build_commits_nothing E ctlr_serving "default" spec_gw parsed_gw c1
              [route_reencrypt] gs
              ltac:(vm_compute; reflexivity) ltac:(vm_compute; reflexivity) Hg
              ltac:(discriminate) Hpl He) as (Hp & Hnew & Hltm & _).
  split; [exact Hp|]. split; [exact Hnew|].
  unfold getResource. rewrite Hltm. vm_compute. reflexivity.
Defined.

(** C3, the statement as claimed fails: the build of the group of
    [route_reencrypt] fails on the HTTPS port (no server SSL profile can
    be created), yet the HTTP virtual server that the store held is gone
    after it, and the route event is not marked retryable. *)
Lemma failed_build_counterexample :
  let E := no_server_profile_externals [route_reencrypt] in
  ∃ c1 gs ctlr',
    getGroupedRoutes E ctlr_serving "default" spec_gw = Some (c1, [route_reencrypt]) ∧
    portsLoop E c1 ∅ "default" "test" spec_gw [route_reencrypt]
      (getVirtualPortsForRoutes [route_reencrypt]) = Some gs ∧
    gs_processingError gs = true ∧
    processRoutes E ctlr_serving "default" false = Done ctlr' ∧
    processRouteEvent E ctlr_serving route_reencrypt = Some (ctlr', false) ∧
    getResource (resources ctlr_serving) "test" "gw_80"
      = Some (vs_sample "gw_80" "http" 80) ∧
    getResource (resources ctlr') "test" "gw_80" = None.
Proof.
  intros E.
  destruct (getGroupedRoutes E ctlr_serving "default" spec_gw) as [[c1 routes]|] eqn:Hg;
    [|vm_compute in Hg; discriminate Hg].
  assert (routes = [route_reencrypt]) as ->
    by (vm_compute in Hg; by injection Hg as _ <-).
  destruct (portsLoop E c1 ∅ "default" "test" spec_gw [route_reencrypt]
              (getVirtualPortsForRoutes [route_reencrypt])) as [gs|] eqn:Hpl.
  2: { exfalso. vm_compute in Hg. injection Hg as <-. vm_compute in Hpl. discriminate Hpl. }
  destruct (processRoutes E ctlr_serving "default" false) as [ctlr'| |] eqn:Hp;
    [|vm_compute in Hp; discriminate Hp..].
  exists c1, gs, ctlr'. split; [reflexivity|]. split; [exact Hpl|].
  split.
  { vm_compute in Hg. injection Hg as <-. vm_compute in Hpl. by injection Hpl as <-. }
  split; [reflexivity|].
  split.
  { unfold processRouteEvent.
    assert (invertedNamespaceLabelMap (resources ctlr_serving)
              !! rt_Namespace route_reencrypt = Some "default") as Hl
      by (vm_compute; reflexivity).
    by rewrite Hl, Hp. }
  split; [vm_compute; reflexivity|].
  vm_compute in Hp. injection Hp as <-. vm_compute. reflexivity.
Qed.
